(** * gocache: an in-process key/value cache with per-entry expiration

    A shallow embedding of [gocache/gocache.go] and the properties of its
    store, expiration check, sweep and snapshot merge.

    Modelling conventions.
    - [int64] and [time.Duration] values are integers in [Z]; the only
      arithmetic the package performs on them is the addition hidden in
      [time.Now().Add(d).UnixNano()], whose 64-bit wrap-around is written
      out with [wrap64].
    - [map[string]Item] is a [gmap string Item].
    - [interface{}] is [option V] for an arbitrary payload type [V]; the
      [nil] interface is [None].
    - The wall clock is an oracle [clock : nat → Z]: the [i]-th call of
      [time.Now()] made by the program reads [clock i] nanoseconds since
      the Unix epoch.  The number of readings taken so far is part of the
      machine state, so every call of [time.Now()] in the source is a
      separate reading in the model.
    - Go leaves the iteration order of [range] over a map unspecified; the
      order is an oracle [mapRange] that enumerates each map in some order.
    - [encoding/gob] is outside the package: the decoder is a parameter.
    - The [sync.RWMutex] is not modelled: the embedding is sequential, each
      method runs atomically.  The goroutine that [NewCache] starts is
      recorded as started, and [gcLoop] is run on the sequence of [select]
      cases that become ready.
    - [Save] is modelled over a gob library given as parameters: the
      registry of the package with [gob.Register], which may panic, and the
      encoder made on the writer.
    - [SaveToFile], [LoadFromFile] and [StopGc] only open, close and pass on
      a file or send on a channel; they are left out. *)

From Stdlib Require Import ZArith Lia.
From stdpp Require Import gmap strings list fin_maps.

Module gocache.

Local Open Scope Z_scope.

(** ** 64-bit integers *)

Definition int64_min : Z := - 2 ^ 63.
Definition int64_max : Z := 2 ^ 63 - 1.

(** Two's-complement wrap-around of a mathematical integer into [int64]. *)
Definition wrap64 (z : Z) : Z := (z + 2 ^ 63) mod 2 ^ 64 - 2 ^ 63.

Definition in_int64 (z : Z) : Prop := int64_min ≤ z ≤ int64_max.

(** Go's [error] values are represented by their message. *)
Definition error : Type := string.

(** [const ( NoExpiration = -1; DefaultExpiration = 0 )] *)
Definition NoExpiration : Z := -1.
Definition DefaultExpiration : Z := 0.

(** ** Data *)

(** [type Item struct { Object interface{}; Expiration int64 }] *)
Record Item {V : Type} : Type := mkItem {
  Object : option V;
  Expiration : Z
}.
Global Arguments Item : clear implicits.
Global Arguments mkItem {V} _ _.

(** [type Cache struct]; the fields [mu] and [stopGc] are synchronisation
    devices and have no counterpart in the sequential model. *)
Record Cache {V : Type} : Type := mkCache {
  defaultExpiration : Z;
  items : gmap string (Item V);
  gcInterval : Z
}.
Global Arguments Cache : clear implicits.
Global Arguments mkCache {V} _ _ _.

(** The machine state: the cache behind the receiver pointer [c], and the
    number of clock readings taken so far. *)
Record World {V : Type} : Type := mkWorld {
  heap : Cache V;
  ticks : nat
}.
Global Arguments World : clear implicits.
Global Arguments mkWorld {V} _ _.

(** ** The state monad the methods run in *)

Definition M (V A : Type) : Type := World V → A * World V.

Global Instance M_ret {V} : MRet (M V) := λ A (a : A) w, (a, w).
Global Instance M_bind {V} : MBind (M V) :=
  λ A B (f : A → M V B) (m : M V A) w, let '(a, w') := m w in f a w'.

(** [for _, x := range l { body x }] *)
Fixpoint forEach {V A} (l : list A) (body : A → M V unit) : M V unit :=
  match l with
  | [] => mret tt
  | x :: l' => body x ;; forEach l' body
  end.

Section Cache.

Context {V : Type}.

(** The clock oracle. *)
Variable clock : nat → Z.

(** The iteration order of [range] over a map: the pairs of the map, each
    once, in the order in which the loop visits them. *)
Variable mapRange : gmap string (Item V) → list (string * Item V).

(** [gob.NewDecoder(r).Decode(&items)] on a fresh map: either an error or
    the decoded mapping. *)
Variable gobDecode : list Byte.byte → error + gmap string (Item V).

Local Abbreviation Item := (Item V).
Local Abbreviation Cache := (Cache V).
Local Abbreviation World := (World V).
Local Abbreviation M := (M V).

(** *** Primitive accesses *)

(** [time.Now().UnixNano()] *)
Definition timeNowUnixNano : M Z :=
  λ w, (clock (ticks w), mkWorld (heap w) (S (ticks w))).

(** [time.Now().Add(d).UnixNano()]: the sum of the reading and [d],
    truncated to 64 bits by [UnixNano]. *)
Definition timeNowAddUnixNano (d : Z) : M Z :=
  now ← timeNowUnixNano; mret (wrap64 (now + d)).

(** Reads of the fields of [c]. *)
Definition readItems : M (gmap string Item) := λ w, (items (heap w), w).
Definition readDefaultExpiration : M Z := λ w, (defaultExpiration (heap w), w).
Definition readGcInterval : M Z := λ w, (gcInterval (heap w), w).

(** An update of [c.items]. *)
Definition updItems (f : gmap string Item → gmap string Item) : M unit :=
  λ w, (tt, mkWorld (mkCache (defaultExpiration (heap w)) (f (items (heap w)))
                             (gcInterval (heap w))) (ticks w)).

(** *** The expiration check *)

(** The decision [Item.Expired] takes once the clock has been read. *)
Definition Expired_at (now : Z) (item : Item) : bool :=
  if Expiration item =? 0 then false else now >? Expiration item.

(** [func (item Item) Expired() bool]: the clock is read only when the
    expiration is not the zero value. *)
Definition Expired (item : Item) : M bool :=
  if Expiration item =? 0 then mret false
  else now ← timeNowUnixNano; mret (now >? Expiration item).

(** *** The store *)

(** [func (c *Cache) del(k string)] *)
Definition del (k : string) : M unit := updItems (delete k).

(** The body of the loop of [DeleteExpired], for the pair [k, v] that
    [range] yields. *)
Definition sweepEntry (now : Z) (kv : string * Item) : M unit :=
  if (Expiration kv.2 >? 0) && (now >? Expiration kv.2)
  then del kv.1 else mret tt.

(** [func (c *Cache) DeleteExpired()] *)
Definition DeleteExpired : M unit :=
  now ← timeNowUnixNano;
  m ← readItems;
  forEach (mapRange m) (sweepEntry now).

(** [func (c *Cache) set(k string, v interface{}, d time.Duration)] *)
Definition set (k : string) (v : option V) (d : Z) : M unit :=
  dflt ← readDefaultExpiration;
  let d := if d =? DefaultExpiration then dflt else d in
  e ← (if d >? 0 then timeNowAddUnixNano d else mret 0);
  updItems (<[k := mkItem v e]>).

(** [func (c *Cache) Set(k string, v interface{}, d time.Duration)]: the
    body of [set] between the lock and the unlock. *)
Definition Set_ (k : string) (v : option V) (d : Z) : M unit :=
  dflt ← readDefaultExpiration;
  let d := if d =? DefaultExpiration then dflt else d in
  e ← (if d >? 0 then timeNowAddUnixNano d else mret 0);
  updItems (<[k := mkItem v e]>).

(** [func (c *Cache) get(k string) (interface{}, bool)] *)
Definition get (k : string) : M (option V * bool) :=
  m ← readItems;
  match m !! k return M (option V * bool) with
  | None => mret (None, false)
  | Some item =>
      Expired item ≫= λ expired : bool,
      if expired then mret (None, false) else mret (Object item, true)
  end.

(** [func (c *Cache) Get(k string) (interface{}, bool)] *)
Definition Get (k : string) : M (option V * bool) :=
  m ← readItems;
  match m !! k return M (option V * bool) with
  | None => mret (None, false)
  | Some item =>
      Expired item ≫= λ expired : bool,
      if expired then mret (None, false) else mret (Object item, true)
  end.

(** [fmt.Errorf("Item %s already exists", k)] and
    [fmt.Errorf("Item %s doesn't exist", k)] *)
Definition errAlreadyExists (k : string) : error :=
  ("Item " +:+ k +:+ " already exists")%string.
Definition errDoesntExist (k : string) : error :=
  ("Item " +:+ k +:+ " doesn't exist")%string.

(** [func (c *Cache) Add(k string, v interface{}, d time.Duration) error] *)
Definition Add (k : string) (v : option V) (d : Z) : M (option error) :=
  get k ≫= λ r : option V * bool,
  if r.2 then mret (Some (errAlreadyExists k))
  else set k v d ;; mret None.

(** [func (c *Cache) Replace(k string, v interface{}, d time.Duration) error] *)
Definition Replace (k : string) (v : option V) (d : Z) : M (option error) :=
  get k ≫= λ r : option V * bool,
  if negb r.2 then mret (Some (errDoesntExist k))
  else set k v d ;; mret None.

(** [func (c *Cache) Delete(k string)] *)
Definition Delete (k : string) : M unit := del k.

(** The body of the loop of [Load], for the pair [k, v] that [range]
    yields from the decoded map. *)
Definition mergeEntry (kv : string * Item) : M unit :=
  m ← readItems;
  match m !! kv.1 return M unit with
  | None => updItems (<[kv.1 := kv.2]>)
  | Some ov =>
      Expired ov ≫= λ expired : bool,
      if expired then updItems (<[kv.1 := kv.2]>) else mret tt
  end.

(** [func (c *Cache) Load(r io.Reader) error] *)
Definition Load (r : list Byte.byte) : M (option error) :=
  match gobDecode r with
  | inl err => mret (Some err)
  | inr loaded => forEach (mapRange loaded) mergeEntry ;; mret None
  end.

(** [func (c *Cache) Count() int] *)
Definition Count : M nat := m ← readItems; mret (size m).

(** [func (c *Cache) Clear()] *)
Definition Clear : M unit := updItems (λ _, ∅).

(** *** The background sweep *)

(** [time.NewTicker(d)]: the library panics on a non-positive period;
    otherwise the ticker fires every [d] nanoseconds. *)
Definition NewTicker (d : Z) : option Z :=
  if d <=? 0 then None else Some d.

(** The case of the [select] in [gcLoop] that becomes ready. *)
Inductive selectCase : Type :=
  | caseTickerC    (* [case <-ticker.C] *)
  | caseStopGc.    (* [case <-c.stopGc] *)

(** How far a run of [gcLoop] has come once the given cases are consumed. *)
Inductive gcOutcome : Type :=
  | gcWaiting      (* blocked in [select] *)
  | gcReturned     (* left through [return] *)
  | gcPanicked.    (* [NewTicker] panicked *)

(** The [for { select { ... } }] of [gcLoop], driven by the sequence of
    cases that become ready. *)
Fixpoint gcSelect (ready : list selectCase) : M gcOutcome :=
  match ready with
  | [] => mret gcWaiting
  | caseTickerC :: ready' => DeleteExpired ;; gcSelect ready'
  | caseStopGc :: _ => mret gcReturned
  end.

(** [func (c *Cache) gcLoop()] *)
Definition gcLoop (ready : list selectCase) : M gcOutcome :=
  interval ← readGcInterval;
  match NewTicker interval return M gcOutcome with
  | None => mret gcPanicked
  | Some _ => gcSelect ready
  end.

(** The goroutines a call has started with [go]. *)
Inductive goroutine : Type :=
  | go_gcLoop.

(** [func NewCache(defaultExpiration, gcInterval time.Duration) *Cache]:
    the new cache, and the goroutines started. *)
Definition NewCache (defaultExpiration gcInterval : Z)
  : Cache * list goroutine :=
  (mkCache defaultExpiration ∅ gcInterval, [go_gcLoop]).

(** *** Vocabulary of the statements *)

(** The entry stored under [k] is live at the reading [now]. *)
Definition liveAt (now : Z) (m : gmap string Item) (k : string) : bool :=
  match m !! k with
  | Some item => negb (Expired_at now item)
  | None => false
  end.

(** The removal condition of the sweep, for an entry and the reading the
    sweep took. *)
Definition sweptOut (now : Z) (item : Item) : bool :=
  (Expiration item >? 0) && (now >? Expiration item).

(** The duration [set] works with once the default has been substituted. *)
Definition resolved (c : Cache) (d : Z) : Z :=
  if d =? DefaultExpiration then defaultExpiration c else d.

End Cache.

(** ** Saving *)

(** How a call into the gob library ends. *)
Inductive callEnd (A : Type) : Type :=
  | returns (a : A)
  | panics.
Global Arguments returns {A} _.
Global Arguments panics {A}.

(** What a call of [Save] leaves behind: the error it returns, the bytes
    the encoder wrote to the writer, and the registry of the gob package. *)
Record saved {Registry : Type} : Type := mkSaved {
  savedErr : option error;
  savedBytes : list Byte.byte;
  savedRegistry : Registry
}.
Global Arguments saved : clear implicits.
Global Arguments mkSaved {Registry} _ _ _.

(** [fmt.Errorf("Error registering item types with Gob library")] *)
Definition errRegistering : error :=
  "Error registering item types with Gob library"%string.

Section Saving.

Context {V Registry : Type}.

Variable mapRange : gmap string (Item V) → list (string * Item V).

(** [gob.Register(value)], which works on the registry of the gob package:
    the registry after the call, and whether the call panicked. *)
Variable gobRegister : option V → Registry → Registry * bool.

(** [enc.Encode(&c.items)] for the encoder made on the writer: the bytes
    the encoder wrote, and the error it returned unless it panicked. *)
Variable gobEncode :
  Registry → gmap string (Item V) → list Byte.byte * callEnd (option error).

(** [for _, v := range c.items { gob.Register(v.Object) }], up to the first
    call that panics: the registry, and whether a call panicked. *)
Fixpoint registerEach (l : list (string * Item V)) (reg : Registry)
  : Registry * bool :=
  match l with
  | [] => (reg, false)
  | kv :: l' =>
      let '(reg', panicked) := gobRegister (Object kv.2) reg in
      if panicked then (reg', true) else registerEach l' reg'
  end.

(** [func (c *Cache) Save(w io.Writer) (err error)]: the deferred function
    turns a panic of the body into the registering error. *)
Definition Save (reg : Registry) : M V (saved Registry) :=
  m ← readItems;
  let '(reg', panicked) := registerEach (mapRange m) reg in
  if panicked then mret (mkSaved (Some errRegistering) [] reg')
  else
    match gobEncode reg' m with
    | (bytes, returns err) => mret (mkSaved err bytes reg')
    | (bytes, panics) => mret (mkSaved (Some errRegistering) bytes reg')
    end.

End Saving.

(** ** Sample inputs *)

Module Samples.

(** A clock that starts at 1000ns after the epoch and advances by one
    nanosecond per reading. *)
Definition clock (i : nat) : Z := 1000 + Z.of_nat i.

(** A cache with default expiration 50ns holding a live entry ["live"], an
    entry ["old"] that expired at 900ns, an entry ["neg"] with a negative
    expiration and an entry ["forever"] without expiration. *)
Definition stored : gmap string (Item nat) :=
  {[ "live"%string := mkItem (Some 1%nat) 5000;
     "old"%string := mkItem (Some 2%nat) 900;
     "neg"%string := mkItem (Some 3%nat) (-5);
     "forever"%string := mkItem (Some 4%nat) 0 ]}.

Definition world : World nat := mkWorld (mkCache 50 stored 10) 0.

(** A snapshot that has an entry for ["live"], ["old"] and ["new"]. *)
Definition snapshot : gmap string (Item nat) :=
  {[ "live"%string := mkItem (Some 10%nat) 0;
     "old"%string := mkItem (Some 20%nat) 0;
     "new"%string := mkItem (Some 30%nat) (-7) ]}.

(** A decoder that fails on the empty stream and yields [snapshot] on
    every other one. *)
Definition decode (r : list Byte.byte) : error + gmap string (Item nat) :=
  match r with
  | [] => inl "EOF"%string
  | _ :: _ => inr snapshot
  end.

End Samples.

(** A gob library for the samples. *)
Module SaveSamples.

Global Instance Item_eq_dec : EqDecision (Item nat).
Proof. solve_decision. Defined.

(** The registry lists the values registered; registering [nil] panics. *)
Definition register (o : option nat) (reg : list nat) : list nat * bool :=
  match o with
  | Some n => (n :: reg, false)
  | None => (reg, true)
  end.

(** An encoder that writes one byte for [Samples.snapshot] and fails on
    every other map; [Samples.decode] reads that byte back. *)
Definition encode (reg : list nat) (m : gmap string (Item nat))
  : list Byte.byte * callEnd (option error) :=
  if decide (m = Samples.snapshot) then ([Byte.x00], returns None)
  else ([], returns (Some "unsupported"%string)).

(** A cache that holds the entries of [Samples.snapshot]. *)
Definition world : World nat := mkWorld (mkCache 50 Samples.snapshot 10) 0.

(** A cache with an entry whose value is [nil]. *)
Definition worldWithNil : World nat :=
  mkWorld (mkCache 50 (<[ "nil"%string := mkItem None 0 ]> Samples.stored) 10) 0.

End SaveSamples.

(** ** Properties *)

Section Properties.

Context {V : Type}.
Variable clock : nat → Z.
Variable mapRange : gmap string (Item V) → list (string * Item V).

(** Whatever order [range] takes, it yields the pairs of the map, each
    once. *)
Hypothesis mapRange_enum : ∀ m, mapRange m ≡ₚ map_to_list m.

Variable gobDecode : list Byte.byte → error + gmap string (Item V).

Implicit Types (k : string) (v : option V) (d now : Z) (item ov : Item V).
Implicit Types (w : World V) (m loaded : gmap string (Item V)).

(** Unfolds the monad so that a run of a method becomes a term on pairs. *)
Ltac run :=
  unfold mbind, M_bind, mret, M_ret, readItems, readDefaultExpiration,
    readGcInterval, updItems, timeNowAddUnixNano, timeNowUnixNano in *;
  cbn [fst snd heap ticks items defaultExpiration gcInterval] in *.

(** *** Runs of the elementary methods *)

Lemma Expired_run item w :
  Expired clock item w =
    (Expired_at (clock (ticks w)) item,
     mkWorld (heap w)
       (if Expiration item =? 0 then ticks w else S (ticks w))).
Proof.
  unfold Expired, Expired_at. destruct w as [c t].
  destruct (Expiration item =? 0); reflexivity.
Qed.

Lemma get_run k w :
  get clock k w =
    match items (heap w) !! k with
    | None => ((None, false), w)
    | Some item =>
        (if Expired_at (clock (ticks w)) item then (None, false)
         else (Object item, true),
         mkWorld (heap w)
           (if Expiration item =? 0 then ticks w else S (ticks w)))
    end.
Proof.
  unfold get. run. destruct (items (heap w) !! k) as [item|]; [|reflexivity].
  rewrite Expired_run.
  destruct (Expired_at (clock (ticks w)) item); reflexivity.
Qed.

Lemma Get_get k w : Get clock k w = get clock k w.
Proof. reflexivity. Qed.

Lemma get_found k w :
  (get clock k w).1.2 = liveAt (clock (ticks w)) (items (heap w)) k.
Proof.
  rewrite get_run. unfold liveAt.
  destruct (items (heap w) !! k) as [item|]; [|reflexivity].
  destruct (Expired_at (clock (ticks w)) item); reflexivity.
Qed.

Lemma get_heap k w : heap (get clock k w).2 = heap w.
Proof.
  rewrite get_run. destruct (items (heap w) !! k); reflexivity.
Qed.

Lemma set_run k v d w :
  set clock k v d w =
    (tt,
     mkWorld
       (mkCache (defaultExpiration (heap w))
          (<[k := mkItem v (if resolved (heap w) d >? 0
                            then wrap64 (clock (ticks w) + resolved (heap w) d)
                            else 0)]> (items (heap w)))
          (gcInterval (heap w)))
       (if resolved (heap w) d >? 0 then S (ticks w) else ticks w)).
Proof.
  unfold set, resolved. run.
  destruct ((if d =? DefaultExpiration then defaultExpiration (heap w) else d) >? 0);
    reflexivity.
Qed.

Lemma Set_set k v d w : Set_ clock k v d w = set clock k v d w.
Proof. reflexivity. Qed.

Lemma wrap64_id z : in_int64 z → wrap64 z = z.
Proof.
  unfold in_int64, int64_min, int64_max, wrap64. intros Hz.
  rewrite Z.mod_small; lia.
Qed.

Lemma Expired_at_true now item :
  Expired_at now item = true ↔ Expiration item ≠ 0 ∧ now > Expiration item.
Proof.
  unfold Expired_at. destruct (Expiration item =? 0) eqn:He.
  - apply Z.eqb_eq in He. split; [done|]. by intros [? _].
  - apply Z.eqb_neq in He. rewrite Z.gtb_gt. split; [done|]. by intros [_ ?].
Qed.

(** An entry that is expired stays expired at every later reading. *)
Lemma Expired_at_mono now now' item :
  now ≤ now' → Expired_at now item = true → Expired_at now' item = true.
Proof. rewrite !Expired_at_true. lia. Qed.

Lemma Expired_at_sentinel now v : Expired_at now (mkItem v 0) = false.
Proof. reflexivity. Qed.

(** *** The sweep loop *)

Lemma sweepEntry_run now kv w :
  sweepEntry now kv w =
    (tt,
     mkWorld
       (mkCache (defaultExpiration (heap w))
          (if sweptOut now kv.2 then delete kv.1 (items (heap w))
           else items (heap w))
          (gcInterval (heap w)))
       (ticks w)).
Proof.
  unfold sweepEntry, sweptOut, del. run.
  destruct ((Expiration kv.2 >? 0) && (now >? Expiration kv.2));
    destruct w as [[? ? ?] ?]; reflexivity.
Qed.

Lemma sweep_loop_frame now (l : list (string * Item V)) w :
  let w' := (forEach l (sweepEntry now) w).2 in
  ticks w' = ticks w
  ∧ defaultExpiration (heap w') = defaultExpiration (heap w)
  ∧ gcInterval (heap w') = gcInterval (heap w).
Proof.
  revert w. induction l as [|kv l IH]; intros w; [done|].
  cbn [forEach]. run. rewrite sweepEntry_run.
  match goal with |- context [forEach l _ ?w1] =>
    destruct (IH w1) as (Ht & Hd & Hg) end.
  cbn zeta. by rewrite Ht, Hd, Hg.
Qed.

(** The loop only deletes: a key that is absent stays absent. *)
Lemma sweep_loop_absent now (l : list (string * Item V)) k w :
  items (heap w) !! k = None →
  items (heap (forEach l (sweepEntry now) w).2) !! k = None.
Proof.
  revert w. induction l as [|[k0 v0] l IH]; intros w Hk; [done|].
  cbn [forEach]. run. rewrite sweepEntry_run. apply IH.
  cbn [heap items fst snd]. destruct (sweptOut now v0); [|done].
  rewrite lookup_delete. by case_decide.
Qed.

Lemma sweep_loop_keep now (l : list (string * Item V)) k w :
  (∀ item, (k, item) ∈ l → sweptOut now item = false) →
  items (heap (forEach l (sweepEntry now) w).2) !! k = items (heap w) !! k.
Proof.
  revert w. induction l as [|[k0 v0] l IH]; intros w Hl; [done|].
  cbn [forEach]. run. rewrite sweepEntry_run.
  rewrite IH; [|intros item Hin; apply Hl; by right].
  cbn [heap items fst snd].
  destruct (sweptOut now v0) eqn:Hs; [|done].
  destruct (decide (k0 = k)) as [->|Hne].
  - rewrite Hl in Hs; [done|by left].
  - by rewrite lookup_delete_ne.
Qed.

Lemma sweep_loop_drop now (l : list (string * Item V)) k item w :
  (k, item) ∈ l → sweptOut now item = true →
  items (heap (forEach l (sweepEntry now) w).2) !! k = None.
Proof.
  revert w. induction l as [|[k0 v0] l IH]; intros w Hin Hs.
  - by apply elem_of_nil in Hin.
  - cbn [forEach]. run. rewrite sweepEntry_run.
    apply elem_of_cons in Hin as [Heq|Hin]; [|by apply IH].
    injection Heq as <- <-. apply sweep_loop_absent.
    cbn [heap items fst snd]. rewrite Hs. apply lookup_delete_eq.
Qed.

(** The entry a sweep leaves under each key. *)
Lemma DeleteExpired_lookup w k :
  items (heap (DeleteExpired clock mapRange w).2) !! k =
    match items (heap w) !! k with
    | Some item =>
        if sweptOut (clock (ticks w)) item then None else Some item
    | None => None
    end.
Proof.
  unfold DeleteExpired. run.
  destruct (items (heap w) !! k) as [item|] eqn:Hk.
  - assert ((k, item) ∈ mapRange (items (heap w))) as Hin.
    { rewrite mapRange_enum. by apply elem_of_map_to_list. }
    destruct (sweptOut (clock (ticks w)) item) eqn:Hs.
    + by eapply sweep_loop_drop.
    + rewrite sweep_loop_keep; [done|].
      intros item' Hin'. rewrite mapRange_enum in Hin'.
      apply elem_of_map_to_list in Hin'. cbn in Hin'. congruence.
  - apply sweep_loop_absent. done.
Qed.

Lemma DeleteExpired_frame w :
  let w' := (DeleteExpired clock mapRange w).2 in
  ticks w' = S (ticks w)
  ∧ defaultExpiration (heap w') = defaultExpiration (heap w)
  ∧ gcInterval (heap w') = gcInterval (heap w).
Proof.
  unfold DeleteExpired. run.
  apply (sweep_loop_frame _ _ (mkWorld (heap w) (S (ticks w)))).
Qed.

(** *** The merge loop *)

Lemma mergeEntry_run kv w :
  mergeEntry clock kv w =
    (tt,
     match items (heap w) !! kv.1 with
     | None =>
         mkWorld
           (mkCache (defaultExpiration (heap w))
              (<[kv.1 := kv.2]> (items (heap w))) (gcInterval (heap w)))
           (ticks w)
     | Some ov =>
         mkWorld
           (mkCache (defaultExpiration (heap w))
              (if Expired_at (clock (ticks w)) ov
               then <[kv.1 := kv.2]> (items (heap w)) else items (heap w))
              (gcInterval (heap w)))
           (if Expiration ov =? 0 then ticks w else S (ticks w))
     end).
Proof.
  unfold mergeEntry. run.
  destruct (items (heap w) !! kv.1) as [ov|]; [|reflexivity].
  rewrite Expired_run.
  destruct (Expired_at (clock (ticks w)) ov); destruct w as [[? ? ?] ?];
    reflexivity.
Qed.

Lemma merge_loop_frame (l : list (string * Item V)) w :
  let w' := (forEach l (mergeEntry clock) w).2 in
  (ticks w ≤ ticks w')%nat
  ∧ defaultExpiration (heap w') = defaultExpiration (heap w)
  ∧ gcInterval (heap w') = gcInterval (heap w).
Proof.
  revert w. induction l as [|kv l IH]; intros w; [done|].
  cbn [forEach]. run. rewrite mergeEntry_run.
  match goal with |- context [forEach l _ ?w1] =>
    destruct (IH w1) as (Ht & Hd & Hg) end.
  cbn zeta. rewrite Hd, Hg. split; [|by destruct (items (heap w) !! kv.1)].
  etrans; [|exact Ht].
  destruct (items (heap w) !! kv.1) as [ov|]; cbn [ticks]; [|lia].
  destruct (Expiration ov =? 0); lia.
Qed.

(** Keys the loop does not visit keep their entry. *)
Lemma merge_loop_other (l : list (string * Item V)) k w :
  k ∉ l.*1 →
  items (heap (forEach l (mergeEntry clock) w).2) !! k = items (heap w) !! k.
Proof.
  revert w. induction l as [|[k0 v0] l IH]; intros w Hk; [done|].
  apply not_elem_of_cons in Hk as [Hne Hk]. cbn [fst] in Hne.
  cbn [forEach]. run. rewrite mergeEntry_run, IH by done. cbn [fst snd].
  destruct (items (heap w) !! k0) as [ov|]; cbn [heap items].
  - destruct (Expired_at (clock (ticks w)) ov); [|done].
    by rewrite lookup_insert_ne.
  - by rewrite lookup_insert_ne.
Qed.

(** The entry the loop leaves under a key it visits: the loaded one when
    the key was free, and otherwise the one chosen by the expiration check
    of the stored entry at some reading [clock t] taken during the loop. *)
Lemma merge_loop_visited (l : list (string * Item V)) k item w :
  NoDup l.*1 → (k, item) ∈ l →
  let w' := (forEach l (mergeEntry clock) w).2 in
  match items (heap w) !! k with
  | None => items (heap w') !! k = Some item
  | Some ov =>
      ∃ t : nat, (ticks w ≤ t ≤ ticks w')%nat
        ∧ (Expiration ov ≠ 0 → (t < ticks w')%nat)
        ∧ items (heap w') !! k =
            Some (if Expired_at (clock t) ov then item else ov)
  end.
Proof.
  revert w. induction l as [|[k0 v0] l IH]; intros w Hnd Hin.
  - by apply elem_of_nil in Hin.
  - rewrite fmap_cons in Hnd. apply NoDup_cons in Hnd as [Hk0 Hnd].
    cbn [fst] in Hk0. cbn zeta. cbn [forEach]. run.
    rewrite mergeEntry_run. cbn [fst snd].
    match goal with |- context [forEach l _ ?x] => set (w1 := x) end.
    apply elem_of_cons in Hin as [Heq|Hin].
    + injection Heq as <- <-.
      rewrite merge_loop_other by done.
      pose proof (merge_loop_frame l w1) as (Ht & _ & _).
      subst w1. destruct (items (heap w) !! k) as [ov|] eqn:Hk.
      * exists (ticks w). cbn [heap items ticks] in *.
        split; [|split].
        { split; [done|]. etrans; [|exact Ht].
          destruct (Expiration ov =? 0); lia. }
        { intros Hne. apply Z.eqb_neq in Hne. rewrite Hne in Ht |- *. lia. }
        destruct (Expired_at (clock (ticks w)) ov); [|done].
        by rewrite lookup_insert_eq.
      * cbn [heap items]. by rewrite lookup_insert_eq.
    + assert (k ≠ k0) as Hne.
      { intros ->. apply Hk0. apply list_elem_of_fmap. by exists (k0, item). }
      specialize (IH w1 Hnd Hin). cbn zeta in IH.
      assert (items (heap w1) !! k = items (heap w) !! k) as Hsame.
      { subst w1. destruct (items (heap w) !! k0) as [ov0|]; cbn [heap items].
        - destruct (Expired_at (clock (ticks w)) ov0); [|done].
          by rewrite lookup_insert_ne.
        - by rewrite lookup_insert_ne. }
      rewrite Hsame in IH.
      destruct (items (heap w) !! k) as [ov|]; [|done].
      destruct IH as (t & [Ht1 Ht2] & Hlt & IH). exists t.
      split; [|by split]. split; [|done]. etrans; [|exact Ht1].
      subst w1. destruct (items (heap w) !! k0) as [ov0|]; cbn [ticks]; [|lia].
      destruct (Expiration ov0 =? 0); lia.
Qed.

(** *** The expiration check *)

(** C7. The expiration check is a pure function of the entry's expiration
    and the clock reading: an entry is expired exactly when its expiration
    is not the zero sentinel and the reading is strictly greater than it.
    The check leaves the cache alone, two checks that see the same
    expiration and the same reading agree, an entry whose expiration equals
    the reading is not expired, and an entry with the sentinel is not
    expired at any reading. *)
Theorem Expired_strict_and_pure item w :
  let now := clock (ticks w) in
  ((Expired clock item w).1 = true ↔ Expiration item ≠ 0 ∧ now > Expiration item)
  ∧ heap (Expired clock item w).2 = heap w
  ∧ (∀ item' w',
       Expiration item' = Expiration item → clock (ticks w') = now →
       (Expired clock item' w').1 = (Expired clock item w).1)
  ∧ (∀ v, (Expired clock (mkItem v now) w).1 = false)
  ∧ (∀ v w', (Expired clock (mkItem v 0) w').1 = false).
Proof.
  cbn zeta. rewrite Expired_run. cbn [fst snd heap].
  split; [|split; [done|split; [|split]]].
  - apply Expired_at_true.
  - intros item' w' He Hc. rewrite Expired_run. cbn [fst].
    unfold Expired_at. by rewrite He, Hc.
  - intros v. rewrite Expired_run. cbn [fst]. unfold Expired_at.
    cbn [Expiration]. destruct (clock (ticks w) =? 0); [done|].
    rewrite Z.gtb_ltb. apply Z.ltb_irrefl.
  - intros v w'. by rewrite Expired_run.
Qed.

(** *** Reads *)

(** C8. [Get] reports [(nil, false)] when the key is absent or its entry is
    expired at the reading it takes, and the stored value with [true]
    otherwise; in every case the cache behind [c], and with it the entry
    mapping, is what it was: an expired entry stays in the map. *)
Theorem Get_reads_without_deleting k w :
  (Get clock k w).1 =
    match items (heap w) !! k with
    | None => (None, false)
    | Some item =>
        if Expired_at (clock (ticks w)) item then (None, false)
        else (Object item, true)
    end
  ∧ heap (Get clock k w).2 = heap w
  ∧ items (heap (Get clock k w).2) !! k = items (heap w) !! k.
Proof.
  rewrite Get_get, get_heap. repeat split.
  rewrite get_run. by destruct (items (heap w) !! k).
Qed.

(** C9. [Count] returns the number of entries stored in the map and
    changes nothing; an entry that is present but expired, which [Get]
    reports as not found, is one of the entries counted. *)
Theorem Count_includes_expired w :
  Count w = (size (items (heap w)), w)
  ∧ ∀ k item,
      items (heap w) !! k = Some item →
      Expired_at (clock (ticks w)) item = true →
      (Get clock k w).1 = (None, false)
      ∧ (Count w).1 = S (size (delete k (items (heap w)))).
Proof.
  split; [done|]. intros k item Hk He. split.
  - rewrite Get_get, get_run, Hk, He. done.
  - unfold Count. run. rewrite map_size_delete, Hk.
    assert (size (items (heap w)) ≠ 0%nat); [|lia].
    intros Hz. apply map_size_empty_iff in Hz. by rewrite Hz in Hk.
Qed.

(** *** Conditional writes *)

Lemma liveAt_true now m k :
  liveAt now m k = true ↔ ∃ item, m !! k = Some item ∧ Expired_at now item = false.
Proof.
  unfold liveAt. destruct (m !! k) as [item|].
  - rewrite negb_true_iff. split; [by exists item|].
    by intros (? & [= <-] & ?).
  - split; [done|]. by intros (? & ? & ?).
Qed.

Lemma liveAt_false now m k :
  liveAt now m k = false ↔
  m !! k = None ∨ ∃ item, m !! k = Some item ∧ Expired_at now item = true.
Proof.
  unfold liveAt. destruct (m !! k) as [item|].
  - rewrite negb_false_iff. split; [right; by exists item|].
    by intros [|(? & [= <-] & ?)].
  - split; [by left|done].
Qed.

Lemma Add_run k v d w :
  Add clock k v d w =
    if liveAt (clock (ticks w)) (items (heap w)) k
    then (Some (errAlreadyExists k), (get clock k w).2)
    else (None, (set clock k v d (get clock k w).2).2).
Proof.
  unfold Add. run. rewrite <- get_found.
  destruct (get clock k w) as [[o found] w1]. cbn [fst snd].
  destruct found; [done|]. by destruct (set clock k v d w1) as [[] w2].
Qed.

Lemma Replace_run k v d w :
  Replace clock k v d w =
    if liveAt (clock (ticks w)) (items (heap w)) k
    then (None, (set clock k v d (get clock k w).2).2)
    else (Some (errDoesntExist k), (get clock k w).2).
Proof.
  unfold Replace. run. rewrite <- get_found.
  destruct (get clock k w) as [[o found] w1]. cbn [fst snd].
  destruct found; cbn [negb]; [|done].
  by destruct (set clock k v d w1) as [[] w2].
Qed.

(** C4. [Add] returns the "already exists" error exactly when the key has
    an entry that is not expired at the reading the call takes, and returns
    no error exactly when the key is absent or its entry is expired.  When
    it returns no error the state is the one [set] produces (from the state
    in which the check left the cache, whose contents are the initial
    ones); when it returns the error the cache is unchanged. *)
Theorem Add_fails_iff_live k v d w :
  let now := clock (ticks w) in
  let r := Add clock k v d w in
  (r.1 = Some (errAlreadyExists k) ↔
     ∃ item, items (heap w) !! k = Some item ∧ Expired_at now item = false)
  ∧ (r.1 = None ↔
       items (heap w) !! k = None
       ∨ ∃ item, items (heap w) !! k = Some item ∧ Expired_at now item = true)
  ∧ (r.1 = None →
       r.2 = (set clock k v d (get clock k w).2).2
       ∧ heap (get clock k w).2 = heap w)
  ∧ (r.1 ≠ None → heap r.2 = heap w).
Proof.
  cbn zeta. rewrite Add_run, <- liveAt_true, <- liveAt_false.
  destruct (liveAt (clock (ticks w)) (items (heap w)) k); cbn [fst snd];
    rewrite get_heap; repeat split; done.
Qed.

(** C5. [Replace] returns the "doesn't exist" error exactly when the key is
    absent or its entry is expired at the reading the call takes, and
    returns no error exactly when the key has an entry that is not
    expired.  When it returns the error the cache is unchanged, and a [Get]
    that follows reports the key as not found: always when the key was
    absent, and when its entry was expired as long as the clock has not
    gone back.  When it returns no error the state is the one [set]
    produces. *)
Theorem Replace_fails_iff_not_live k v d w :
  let now := clock (ticks w) in
  let r := Replace clock k v d w in
  (r.1 = Some (errDoesntExist k) ↔
     items (heap w) !! k = None
     ∨ ∃ item, items (heap w) !! k = Some item ∧ Expired_at now item = true)
  ∧ (r.1 = None ↔
       ∃ item, items (heap w) !! k = Some item ∧ Expired_at now item = false)
  ∧ (r.1 ≠ None → heap r.2 = heap w)
  ∧ (items (heap w) !! k = None →
       r.1 = Some (errDoesntExist k) ∧ r.2 = w
       ∧ (Get clock k r.2).1 = (None, false))
  ∧ (r.1 ≠ None → now ≤ clock (ticks r.2) →
       (Get clock k r.2).1 = (None, false))
  ∧ (r.1 = None →
       r.2 = (set clock k v d (get clock k w).2).2
       ∧ heap (get clock k w).2 = heap w).
Proof.
  cbn zeta. rewrite Replace_run, <- liveAt_true, <- liveAt_false.
  split; [|split; [|split; [|split; [|split]]]].
  - destruct (liveAt _ _ _); cbn [fst]; split; done.
  - destruct (liveAt _ _ _); cbn [fst]; split; done.
  - destruct (liveAt _ _ _); cbn [fst snd]; [done|]. by rewrite get_heap.
  - intros Hk. unfold liveAt. rewrite Hk. cbn [fst snd].
    rewrite get_run, Hk. cbn [snd]. rewrite Get_get, get_run, Hk. done.
  - destruct (liveAt _ _ _) eqn:Hlive; cbn [fst snd]; [done|].
    intros _ Hclock. rewrite Get_get, get_run, get_heap.
    apply liveAt_false in Hlive as [Hk|(item & Hk & He)]; rewrite Hk; [done|].
    by rewrite (Expired_at_mono _ _ _ Hclock He).
  - destruct (liveAt _ _ _); cbn [fst snd]; [|done]. by rewrite get_heap.
Qed.

(** *** The resolution of the duration *)

(** C2. [set] first replaces the duration [DefaultExpiration] by the
    default of the cache.  If the resulting duration is zero or negative
    (the default is zero or negative, or the caller passed [NoExpiration]
    or any other negative duration) the entry is stored with expiration 0,
    which no reading makes expired.  Only a strictly positive duration
    gives a non-zero expiration: the reading plus the duration as
    [UnixNano] returns it, which is their sum whenever the sum is an
    [int64], and the entry is then not expired at that reading.  [Set] is
    the same function, and [Add] and [Replace] store through [set]. *)
Theorem set_resolves_duration k v d w :
  let now := clock (ticks w) in
  let d' := if d =? DefaultExpiration then defaultExpiration (heap w) else d in
  let w' := (set clock k v d w).2 in
  (∃ e, items (heap w') = <[k := mkItem v e]> (items (heap w))
        ∧ (d' ≤ 0 → e = 0 ∧ ∀ t, Expired_at t (mkItem v e) = false)
        ∧ (0 < d' → e = wrap64 (now + d')
                    ∧ (in_int64 (now + d') →
                         e = now + d' ∧ Expired_at now (mkItem v e) = false))
        ∧ (e ≠ 0 → 0 < d'))
  ∧ Set_ clock k v d w = set clock k v d w
  ∧ ((Add clock k v d w).1 = None →
       (Add clock k v d w).2 = (set clock k v d (get clock k w).2).2)
  ∧ ((Replace clock k v d w).1 = None →
       (Replace clock k v d w).2 = (set clock k v d (get clock k w).2).2).
Proof.
  cbn zeta. split; [|split; [done|split]].
  - rewrite set_run. unfold resolved. cbn [snd heap items].
    set (d' := if d =? DefaultExpiration then defaultExpiration (heap w) else d).
    eexists. split; [reflexivity|].
    destruct (d' >? 0) eqn:Hd.
    + apply Z.gtb_gt in Hd. split; [lia|]. split; [|lia].
      intros _. split; [done|]. intros Hrange.
      rewrite wrap64_id by done. split; [done|].
      unfold Expired_at. cbn [Expiration].
      destruct (_ =? 0); [done|].
      destruct (Z.gtb_spec (clock (ticks w)) (clock (ticks w) + d')); [lia|done].
    + assert (d' ≤ 0) as Hle.
      { destruct (Z.gtb_spec d' 0); [done|lia]. }
      split; [done|]. split; [lia|done].
  - rewrite Add_run. by destruct (liveAt _ _ _).
  - rewrite Replace_run. by destruct (liveAt _ _ _).
Qed.

(** *** Snapshots *)

(** C6. When the decoder fails, [Load] returns the decoder's error and the
    state is untouched: the entry mapping has the same keys and the same
    entries as before. *)
Theorem Load_decoding_error r err w :
  gobDecode r = inl err →
  Load clock mapRange gobDecode r w = (Some err, w).
Proof. intros Hdec. unfold Load. by rewrite Hdec. Qed.

Lemma mapRange_NoDup m : NoDup (mapRange m).*1.
Proof. rewrite mapRange_enum. apply NoDup_fst_map_to_list. Qed.

Lemma mapRange_elem m k item : (k, item) ∈ mapRange m ↔ m !! k = Some item.
Proof. rewrite mapRange_enum. apply elem_of_map_to_list. Qed.

Lemma mapRange_absent m k : m !! k = None → k ∉ (mapRange m).*1.
Proof.
  intros Hk Hin. apply list_elem_of_fmap in Hin as ([k' item] & -> & Hin).
  apply mapRange_elem in Hin. cbn [fst] in Hk. congruence.
Qed.

Lemma Load_run_decoded r loaded w :
  gobDecode r = inr loaded →
  (Load clock mapRange gobDecode r w).2 =
    (forEach (mapRange loaded) (mergeEntry clock) w).2.
Proof.
  intros Hdec. unfold Load. rewrite Hdec. run.
  by destruct (forEach (mapRange loaded) (mergeEntry clock) w) as [[] w'].
Qed.

(** C1. When the stream decodes, [Load] returns no error and merges the
    decoded mapping key by key.  A key the snapshot does not have keeps its
    entry.  A key of the snapshot that is absent from the cache receives
    the loaded entry.  A key of the snapshot that has an entry in the cache
    is settled by the expiration check of that entry, at the reading
    [clock t] the check takes during the call (an entry with expiration 0
    is live without a reading): if the entry is expired the loaded entry
    replaces it, and if it is live the loaded entry is discarded, the entry
    stays, and a [Get] made afterwards on the same cache contents returns
    its value as long as it is still not expired. *)
Theorem Load_merges_without_clobbering r loaded k w :
  gobDecode r = inr loaded →
  let w' := (Load clock mapRange gobDecode r w).2 in
  (Load clock mapRange gobDecode r w).1 = None
  ∧ match loaded !! k, items (heap w) !! k with
    | None, cur => items (heap w') !! k = cur
    | Some item, None => items (heap w') !! k = Some item
    | Some item, Some ov =>
        ∃ t : nat,
          (ticks w ≤ t ≤ ticks w')%nat
          ∧ (Expiration ov ≠ 0 → (t < ticks w')%nat)
          ∧ if Expired_at (clock t) ov
            then items (heap w') !! k = Some item
            else items (heap w') !! k = Some ov
                 ∧ ∀ w'', heap w'' = heap w' →
                     Expired_at (clock (ticks w'')) ov = false →
                     (Get clock k w'').1 = (Object ov, true)
    end.
Proof.
  intros Hdec. unfold Load. rewrite Hdec. run.
  destruct (forEach (mapRange loaded) (mergeEntry clock) w) as [[] w'] eqn:Hrun.
  cbn [fst snd]. split; [done|].
  assert (w' = (forEach (mapRange loaded) (mergeEntry clock) w).2) as ->
    by (by rewrite Hrun).
  destruct (loaded !! k) as [item|] eqn:Hl.
  - pose proof (merge_loop_visited (mapRange loaded) k item w
      (mapRange_NoDup loaded) (proj2 (mapRange_elem loaded k item) Hl)) as Hv.
    cbn zeta in Hv. destruct (items (heap w) !! k) as [ov|]; [|done].
    destruct Hv as (t & Ht & Hlt & Hk). exists t. split; [done|]. split; [done|].
    destruct (Expired_at (clock t) ov); [done|]. split; [done|].
    intros w'' Hheap Hlive. rewrite Get_get, get_run, Hheap, Hk, Hlive. done.
  - rewrite merge_loop_other by by apply mapRange_absent.
    by destruct (items (heap w) !! k).
Qed.

(** *** The background sweep *)

Lemma gcSelect_not_panicked ready w :
  (gcSelect clock mapRange ready w).1 ≠ gcPanicked.
Proof.
  revert w. induction ready as [|[] ready IH]; intros w; [done| |done].
  cbn [gcSelect]. run.
  destruct (DeleteExpired clock mapRange w) as [[] w1]. apply IH.
Qed.

(** C3, as the code has it.  [NewCache] returns a cache with the given
    default expiration and sweep interval and an empty entry mapping, and
    it starts the [gcLoop] goroutine whatever the interval is: there is no
    mode without a background sweep.  With a strictly positive interval
    the goroutine creates its ticker without panicking and then serves the
    [select]: it sweeps with [DeleteExpired] at every tick and returns at
    the stop signal. *)
Theorem NewCache_always_starts_gcLoop d g :
  let c := (NewCache (V:=V) d g).1 in
  (NewCache (V:=V) d g).2 = [go_gcLoop]
  ∧ defaultExpiration c = d ∧ gcInterval c = g ∧ items c = ∅
  ∧ (0 < g → ∀ ready t,
       gcLoop clock mapRange ready (mkWorld c t) =
         gcSelect clock mapRange ready (mkWorld c t)
       ∧ (gcLoop clock mapRange ready (mkWorld c t)).1 ≠ gcPanicked)
  ∧ (∀ ready w,
       gcSelect clock mapRange (caseTickerC :: ready) w =
         gcSelect clock mapRange ready (DeleteExpired clock mapRange w).2)
  ∧ (∀ ready w, gcSelect clock mapRange (caseStopGc :: ready) w = (gcReturned, w)).
Proof.
  cbn zeta. repeat (split; [done|]). split; [|split; [|done]].
  - intros Hg ready t.
    assert (gcLoop clock mapRange ready (mkWorld (NewCache d g).1 t) =
            gcSelect clock mapRange ready (mkWorld (NewCache d g).1 t)) as ->.
    { unfold gcLoop, NewTicker, NewCache. run.
      destruct (Z.leb_spec g 0); [lia|done]. }
    split; [done|]. apply gcSelect_not_panicked.
  - intros ready w. cbn [gcSelect]. run.
    by destruct (DeleteExpired clock mapRange w) as [[] w1].
Qed.

(** *** Negative expirations *)

Lemma sweptOut_nonpositive now item : Expiration item ≤ 0 → sweptOut now item = false.
Proof.
  intros He. unfold sweptOut. destruct (Z.gtb_spec (Expiration item) 0); [lia|done].
Qed.

Lemma DeleteExpired_keeps_nonpositive k item w :
  items (heap w) !! k = Some item → Expiration item ≤ 0 →
  items (heap (DeleteExpired clock mapRange w).2) !! k = Some item.
Proof.
  intros Hk He. by rewrite DeleteExpired_lookup, Hk, sweptOut_nonpositive.
Qed.

Lemma gcSelect_keeps_nonpositive ready k item w :
  items (heap w) !! k = Some item → Expiration item ≤ 0 →
  items (heap (gcSelect clock mapRange ready w).2) !! k = Some item.
Proof.
  revert w. induction ready as [|[] ready IH]; intros w Hk He; [done| |done].
  cbn [gcSelect]. run.
  pose proof (DeleteExpired_keeps_nonpositive k item w Hk He) as Hk1.
  destruct (DeleteExpired clock mapRange w) as [[] w1]. by apply IH.
Qed.

Lemma Expired_at_negative now item :
  Expiration item < 0 → 0 ≤ now → Expired_at now item = true.
Proof. intros He Hnow. apply Expired_at_true. lia. Qed.

(** For an entry with a negative expiration the expiration check holds
    exactly at the readings after the expiration. *)
Lemma Expired_at_negative_iff now item :
  Expiration item < 0 →
  Expired_at now item = true ↔ Expiration item < now.
Proof. intros He. rewrite Expired_at_true. lia. Qed.

Lemma Get_negative_iff k item w :
  items (heap w) !! k = Some item →
  Expiration item < 0 →
  (Get clock k w).1 = (None, false) ↔ Expiration item < clock (ticks w).
Proof.
  intros Hk He. rewrite Get_get, get_run, Hk. cbn [fst].
  rewrite <- (Expired_at_negative_iff _ _ He).
  destruct (Expired_at (clock (ticks w)) item); split; done.
Qed.

(** C10, as the code has it.  Take an entry whose expiration is strictly
    negative.  The expiration check holds for it, and [Get] reports it as
    not found, exactly at the clock readings after its expiration, so at
    every reading that is not before the epoch; the removal condition of
    the sweep fails for it at every reading.  So after one
    [DeleteExpired], and after any run of the sweep loop, the entry is
    still in the map and still counted by [Count], and [Get] still reports
    it as not found at the readings after its expiration.  [Load] stores
    such an entry when the snapshot has it under a free key.  [set] stores
    a negative expiration exactly when the duration resolves to a positive
    one and the reading plus the duration, as [UnixNano] returns it, is
    negative; it stores none when the reading is not before the epoch and
    the sum is an [int64]. *)
Theorem negative_expiration_hidden_never_swept k item w ready :
  items (heap w) !! k = Some item →
  Expiration item < 0 →
  let w' := (gcSelect clock mapRange ready w).2 in
  ((Expired clock item w).1 = true ↔ Expiration item < clock (ticks w))
  ∧ ((Get clock k w).1 = (None, false) ↔ Expiration item < clock (ticks w))
  ∧ (0 ≤ clock (ticks w) → (Get clock k w).1 = (None, false))
  ∧ (∀ now, sweptOut now item = false)
  ∧ items (heap (DeleteExpired clock mapRange w).2) !! k = Some item
  ∧ items (heap w') !! k = Some item
  ∧ ((Get clock k w').1 = (None, false) ↔ Expiration item < clock (ticks w'))
  ∧ (0 ≤ clock (ticks w') → (Get clock k w').1 = (None, false))
  ∧ (Count w').1 = S (size (delete k (items (heap w'))))
  ∧ (∀ r loaded w0,
       gobDecode r = inr loaded → loaded !! k = Some item →
       items (heap w0) !! k = None →
       items (heap (Load clock mapRange gobDecode r w0).2) !! k = Some item)
  ∧ (∀ k' v d w0 item',
       items (heap (set clock k' v d w0).2) !! k' = Some item' →
       (Expiration item' < 0 ↔
          0 < resolved (heap w0) d
          ∧ wrap64 (clock (ticks w0) + resolved (heap w0) d) < 0)
       ∧ (0 ≤ clock (ticks w0) →
          in_int64 (clock (ticks w0) + resolved (heap w0) d) →
          0 ≤ Expiration item')).
Proof.
  intros Hk He. cbn zeta.
  pose proof (gcSelect_keeps_nonpositive ready k item w Hk ltac:(lia)) as Hk'.
  pose proof (Get_negative_iff k item w Hk He) as Hget.
  pose proof (Get_negative_iff k item _ Hk' He) as Hget'.
  split; [|split; [|split; [|split; [|split; [|split;
    [|split; [|split; [|split; [|split]]]]]]]]].
  - rewrite Expired_run. by apply Expired_at_negative_iff.
  - exact Hget.
  - intros Hnow. apply Hget. lia.
  - intros now. apply sweptOut_nonpositive. lia.
  - apply DeleteExpired_keeps_nonpositive; [done|lia].
  - done.
  - exact Hget'.
  - intros Hnow. apply Hget'. lia.
  - unfold Count. run. rewrite map_size_delete, Hk'.
    assert (size (items (heap (gcSelect clock mapRange ready w).2)) ≠ 0%nat);
      [|lia].
    intros Hz. apply map_size_empty_iff in Hz. by rewrite Hz in Hk'.
  - intros r loaded w0 Hdec Hl Hfree.
    pose proof (Load_run_decoded r loaded w0 Hdec) as ->.
    pose proof (merge_loop_visited (mapRange loaded) k item w0
      (mapRange_NoDup loaded) (proj2 (mapRange_elem loaded k item) Hl)) as Hv.
    cbn zeta in Hv. by rewrite Hfree in Hv.
  - intros k' v d w0 item'. rewrite set_run. cbn [snd heap items].
    rewrite lookup_insert_eq. intros [= <-]. cbn [Expiration].
    destruct (Z.gtb_spec (resolved (heap w0) d) 0) as [Hpos|Hle].
    + split; [split; [done|by intros [_ ?]]|].
      intros Hnow Hrange. rewrite wrap64_id by done. lia.
    + split; [split; [lia|intros [? _]; lia]|]. done.
Qed.

End Properties.

(** ** Further properties of the methods *)

Section Further.

Context {V : Type}.
Variable clock : nat → Z.
Variable mapRange : gmap string (Item V) → list (string * Item V).
Hypothesis mapRange_enum : ∀ m, mapRange m ≡ₚ map_to_list m.
Variable gobDecode : list Byte.byte → error + gmap string (Item V).

Implicit Types (k : string) (v : option V) (d now : Z) (item ov : Item V).
Implicit Types (w : World V) (m loaded : gmap string (Item V)).

Ltac run :=
  unfold mbind, M_bind, mret, M_ret, readItems, readDefaultExpiration,
    readGcInterval, updItems, timeNowAddUnixNano, timeNowUnixNano in *;
  cbn [fst snd heap ticks items defaultExpiration gcInterval] in *.

(** *** Keys without an entry *)

(** What the three conditional methods do on a key that has no entry. *)
Lemma absent_key k w :
  items (heap w) !! k = None →
  (Get clock k w).1 = (None, false)
  ∧ ∀ v d,
      (Replace clock k v d w).1 = Some (errDoesntExist k)
      ∧ (Add clock k v d w).1 = None.
Proof.
  intros Hk. split; [by rewrite Get_get, get_run, Hk|]. intros v d.
  rewrite Replace_run, Add_run. unfold liveAt. by rewrite Hk.
Qed.

(** *** Writes and reads *)

(** X1. A value stored by [Set] with a duration that resolves to a positive
    one is read back by [Get] at every reading up to the deadline, the
    reading [Set] took plus the duration, and is reported as not found at
    every reading after it.  The deadline is assumed to be an [int64] and
    not 0, the value that stands for no expiration. *)
Theorem Set_then_Get_until_deadline k v d w w1 :
  let deadline := clock (ticks w) + resolved (heap w) d in
  0 < resolved (heap w) d →
  in_int64 deadline →
  deadline ≠ 0 →
  heap w1 = heap (Set_ clock k v d w).2 →
  (Get clock k w1).1 =
    if clock (ticks w1) >? deadline then (None, false) else (v, true).
Proof.
  cbn zeta. intros Hpos Hrange Hnz Hheap.
  rewrite Get_get, get_run, Hheap, Set_set, set_run. cbn [snd heap items].
  rewrite lookup_insert_eq.
  destruct (Z.gtb_spec (resolved (heap w) d) 0); [|lia].
  rewrite wrap64_id by done. unfold Expired_at. cbn [Expiration Object].
  apply Z.eqb_neq in Hnz. rewrite Hnz.
  by destruct (clock (ticks w1) >? clock (ticks w) + resolved (heap w) d).
Qed.

(** X2. A value stored by [Set] with a duration that resolves to zero or
    less ([NoExpiration], or [DefaultExpiration] with such a default) is
    read back by [Get] at every reading, also after any number of sweeps of
    the background loop. *)
Theorem Set_without_deadline_survives k v d w ready w1 :
  resolved (heap w) d ≤ 0 →
  heap w1 = heap (gcSelect clock mapRange ready (Set_ clock k v d w).2).2 →
  (Get clock k w1).1 = (v, true).
Proof.
  intros Hle Hheap.
  assert (items (heap (Set_ clock k v d w).2) !! k = Some (mkItem v 0)) as Hk.
  { rewrite Set_set, set_run. cbn [snd heap items]. rewrite lookup_insert_eq.
    destruct (Z.gtb_spec (resolved (heap w) d) 0); [lia|done]. }
  apply (gcSelect_keeps_nonpositive clock mapRange mapRange_enum ready) in Hk;
    [|done].
  by rewrite Get_get, get_run, Hheap, Hk.
Qed.

(** X3. [Set] writes one key: the key holds the new value, every other key
    keeps its entry, and the number of entries grows by one exactly when
    the key had no entry, expired entries included. *)
Theorem Set_overwrites_one_key k v d w :
  let w' := (Set_ clock k v d w).2 in
  (∃ e, items (heap w') !! k = Some (mkItem v e))
  ∧ (∀ k', k' ≠ k → items (heap w') !! k' = items (heap w) !! k')
  ∧ (Count w').1 =
      match items (heap w) !! k with
      | Some _ => size (items (heap w))
      | None => S (size (items (heap w)))
      end.
Proof.
  cbn zeta. rewrite Set_set, set_run. cbn [snd]. unfold Count. run.
  split; [|split].
  - eexists. apply lookup_insert_eq.
  - intros k' Hne. by rewrite lookup_insert_ne.
  - rewrite map_size_insert. by destruct (items (heap w) !! k).
Qed.

(** X4. [Delete] removes the entry of the key and no other: on a key
    without an entry it changes nothing, otherwise the number of entries
    drops by one.  Afterwards [Get] reports the key as not found, [Replace]
    fails on it and [Add] succeeds. *)
Theorem Delete_removes_one_key k w :
  let w' := (Delete k w).2 in
  items (heap w') !! k = None
  ∧ (∀ k', k' ≠ k → items (heap w') !! k' = items (heap w) !! k')
  ∧ (items (heap w) !! k = None → w' = w)
  ∧ (Count w').1 =
      match items (heap w) !! k with
      | Some _ => pred (size (items (heap w)))
      | None => size (items (heap w))
      end
  ∧ (∀ w1, heap w1 = heap w' →
       (Get clock k w1).1 = (None, false)
       ∧ ∀ v d,
           (Replace clock k v d w1).1 = Some (errDoesntExist k)
           ∧ (Add clock k v d w1).1 = None).
Proof.
  cbn zeta. unfold Delete, del, Count. run.
  split; [|split; [|split; [|split]]].
  - apply lookup_delete_eq.
  - intros k' Hne. by rewrite lookup_delete_ne.
  - intros Hk. rewrite delete_id by done. by destruct w as [[] ?].
  - rewrite map_size_delete. by destruct (items (heap w) !! k).
  - intros w1 Hheap. apply absent_key. rewrite Hheap. cbn [heap items].
    apply lookup_delete_eq.
Qed.

(** X5. [Clear] leaves a cache without entries and with its settings:
    [Count] is 0, and for every key [Get] reports not found, [Replace]
    fails and [Add] succeeds. *)
Theorem Clear_empties w :
  let w' := (Clear w).2 in
  items (heap w') = ∅
  ∧ defaultExpiration (heap w') = defaultExpiration (heap w)
  ∧ gcInterval (heap w') = gcInterval (heap w)
  ∧ (Count w').1 = 0%nat
  ∧ (∀ k w1, heap w1 = heap w' →
       (Get clock k w1).1 = (None, false)
       ∧ ∀ v d,
           (Replace clock k v d w1).1 = Some (errDoesntExist k)
           ∧ (Add clock k v d w1).1 = None).
Proof.
  cbn zeta. unfold Clear, Count. run.
  split; [done|]. split; [done|]. split; [done|]. split; [done|].
  intros k w1 Hheap. apply absent_key. by rewrite Hheap.
Qed.

(** *** The sweep *)

(** X6. [DeleteExpired] takes one reading of the clock and removes exactly
    the entries whose expiration is positive and strictly before that
    reading, whatever the order in which the map is iterated.  It never
    adds an entry, and the only entries that it leaves in the map although
    they are expired at its reading are those with a negative expiration. *)
Theorem DeleteExpired_removes_exactly w :
  let now := clock (ticks w) in
  let w' := (DeleteExpired clock mapRange w).2 in
  items (heap w') =
    filter (λ kv : string * Item V, ¬ (0 < Expiration kv.2 < now))
      (items (heap w))
  ∧ ticks w' = S (ticks w)
  ∧ ((Count w').1 ≤ (Count w).1)%nat
  ∧ (∀ k item,
       items (heap w') !! k = Some item →
       Expired_at now item = true → Expiration item < 0).
Proof.
  cbn zeta.
  assert (items (heap (DeleteExpired clock mapRange w).2) =
          filter (λ kv : string * Item V,
                    ¬ (0 < Expiration kv.2 < clock (ticks w)))
            (items (heap w))) as Hitems.
  { apply map_eq. intros k.
    rewrite (DeleteExpired_lookup clock mapRange mapRange_enum).
    rewrite map_lookup_filter.
    destruct (items (heap w) !! k) as [item|]; [|done]. cbn.
    unfold sweptOut.
    destruct (Z.gtb_spec (Expiration item) 0);
      destruct (Z.gtb_spec (clock (ticks w)) (Expiration item)); cbn;
      case_guard; try done; lia. }
  split; [done|]. split; [|split].
  - apply (DeleteExpired_frame clock mapRange w).
  - unfold Count. run. rewrite Hitems. apply map_size_filter.
  - intros k item Hk He. rewrite Hitems in Hk.
    apply map_lookup_filter_Some in Hk as [_ Hkeep]. cbn in Hkeep.
    apply Expired_at_true in He. lia.
Qed.

(** X7. As long as the clock does not go back, a sweep cannot be observed
    through [Get]: at a reading that is not before the one the sweep took,
    [Get] returns for every key what it would return had the sweep not
    run. *)
Theorem DeleteExpired_invisible_to_Get k w w1 :
  heap w1 = heap (DeleteExpired clock mapRange w).2 →
  clock (ticks w) ≤ clock (ticks w1) →
  (Get clock k w1).1 = (Get clock k (mkWorld (heap w) (ticks w1))).1.
Proof.
  intros Hheap Hclock. rewrite !Get_get, !get_run, Hheap.
  rewrite (DeleteExpired_lookup clock mapRange mapRange_enum).
  cbn [heap ticks].
  destruct (items (heap w) !! k) as [item|]; [|done].
  destruct (sweptOut (clock (ticks w)) item) eqn:Hs; [|done].
  cbn [fst]. unfold sweptOut in Hs. apply andb_true_iff in Hs as [Hpos Hgt].
  apply Z.gtb_gt in Hpos, Hgt.
  assert (Expired_at (clock (ticks w1)) item = true) as ->; [|done].
  apply Expired_at_true. lia.
Qed.

(** X8. Under a clock that does not go back, a key that [Get] reports as
    not found stays not found for as long as the cache is not written. *)
Theorem Get_not_found_is_stable k w w1 :
  heap w1 = heap w →
  clock (ticks w) ≤ clock (ticks w1) →
  (Get clock k w).1.2 = false →
  (Get clock k w1).1 = (None, false).
Proof.
  intros Hheap Hclock. rewrite !Get_get, !get_run, Hheap.
  destruct (items (heap w) !! k) as [item|]; [|done].
  destruct (Expired_at (clock (ticks w)) item) eqn:He; [|done].
  intros _. by rewrite (Expired_at_mono _ _ _ Hclock He).
Qed.

(** *** Snapshots *)

(** The loop of [Load] takes no reading when none of the loaded keys has
    an entry. *)
Lemma merge_loop_fresh_ticks (l : list (string * Item V)) w :
  NoDup l.*1 →
  (∀ k, k ∈ l.*1 → items (heap w) !! k = None) →
  ticks (forEach l (mergeEntry clock) w).2 = ticks w.
Proof.
  revert w. induction l as [|[k0 v0] l IH]; intros w Hnd Hfresh; [done|].
  rewrite fmap_cons in Hnd. apply NoDup_cons in Hnd as [Hk0 Hnd].
  cbn [fst] in Hk0. cbn [forEach]. run. rewrite mergeEntry_run.
  cbn [fst snd]. rewrite Hfresh by (rewrite fmap_cons; left).
  rewrite IH; [done|done|]. intros k Hk. cbn [heap items].
  rewrite lookup_insert_ne; [|by intros ->].
  apply Hfresh. rewrite fmap_cons. by right.
Qed.

(** From a cache without entries the loop of [Load] ends with the loaded
    mapping as the entries. *)
Lemma merge_loop_into_empty loaded w :
  items (heap w) = ∅ →
  (forEach (mapRange loaded) (mergeEntry clock) w).2 =
    mkWorld (mkCache (defaultExpiration (heap w)) loaded (gcInterval (heap w)))
      (ticks w).
Proof.
  intros Hempty.
  set (w' := (forEach (mapRange loaded) (mergeEntry clock) w).2).
  pose proof (merge_loop_frame clock (mapRange loaded) w) as (_ & Hd & Hg).
  pose proof (merge_loop_fresh_ticks (mapRange loaded) w
                (mapRange_NoDup mapRange mapRange_enum loaded)) as Ht.
  fold w' in Hd, Hg, Ht.
  assert (items (heap w') = loaded) as Hitems.
  { apply map_eq. intros k. subst w'.
    destruct (loaded !! k) as [item|] eqn:Hl.
    - pose proof (merge_loop_visited clock (mapRange loaded) k item w
        (mapRange_NoDup mapRange mapRange_enum loaded)
        (proj2 (mapRange_elem mapRange mapRange_enum loaded k item) Hl)) as Hv.
      cbn zeta in Hv. by rewrite Hempty, lookup_empty in Hv.
    - rewrite (merge_loop_other clock)
        by by apply (mapRange_absent mapRange mapRange_enum).
      by rewrite Hempty, lookup_empty. }
  destruct w' as [[d' m' g'] t']. cbn in *. subst.
  rewrite Ht; [done|]. intros k _. by rewrite Hempty, lookup_empty.
Qed.

(** X9. [Load] into a cache without entries, such as a new or a cleared
    one, stores the decoded mapping as it is, expired entries included,
    takes no reading of the clock and keeps the settings. *)
Theorem Load_into_empty_restores r loaded w :
  gobDecode r = inr loaded →
  items (heap w) = ∅ →
  Load clock mapRange gobDecode r w =
    (None,
     mkWorld (mkCache (defaultExpiration (heap w)) loaded (gcInterval (heap w)))
       (ticks w)).
Proof.
  intros Hdec Hempty. unfold Load. rewrite Hdec. run.
  pose proof (merge_loop_into_empty loaded w Hempty) as Hloop.
  destruct (forEach (mapRange loaded) (mergeEntry clock) w) as [[] w'].
  cbn [snd] in Hloop. by rewrite Hloop.
Qed.

(** X10. [Load] never removes a key: after it the keys of the cache are
    those it had together with those of the snapshot, so [Count] does not
    decrease. *)
Theorem Load_keys_are_union r loaded w :
  gobDecode r = inr loaded →
  let w' := (Load clock mapRange gobDecode r w).2 in
  dom (items (heap w')) = dom (items (heap w)) ∪ dom loaded
  ∧ ((Count w).1 ≤ (Count w').1)%nat.
Proof.
  intros Hdec. cbn zeta.
  rewrite (Load_run_decoded clock mapRange gobDecode r loaded w Hdec).
  set (w' := (forEach (mapRange loaded) (mergeEntry clock) w).2).
  assert (dom (items (heap w')) = dom (items (heap w)) ∪ dom loaded) as Hdom.
  { apply set_eq. intros k. rewrite elem_of_union, !elem_of_dom. subst w'.
    destruct (loaded !! k) as [item|] eqn:Hl.
    - pose proof (merge_loop_visited clock (mapRange loaded) k item w
        (mapRange_NoDup mapRange mapRange_enum loaded)
        (proj2 (mapRange_elem mapRange mapRange_enum loaded k item) Hl)) as Hv.
      cbn zeta in Hv. destruct (items (heap w) !! k) as [ov|].
      + destruct Hv as (t & _ & _ & ->). split; eauto.
      + rewrite Hv. split; eauto.
    - rewrite (merge_loop_other clock)
        by by apply (mapRange_absent mapRange mapRange_enum).
      split; [by left|]. intros [?|[? ?]]; done. }
  split; [done|]. unfold Count. run.
  rewrite <- !size_dom, Hdom. apply subseteq_size, union_subseteq_l.
Qed.

(** *** Conditional writes *)

(** X11. At every state exactly one of [Add] and [Replace] succeeds, and
    [Get] tells which: [Add] fails and [Replace] succeeds exactly when
    [Get] finds the key. *)
Theorem Add_and_Replace_agree_with_Get k v d w :
  ((Get clock k w).1.2 = true ↔
     (Add clock k v d w).1 = Some (errAlreadyExists k))
  ∧ ((Get clock k w).1.2 = true ↔ (Replace clock k v d w).1 = None)
  ∧ ((Get clock k w).1.2 = false ↔ (Add clock k v d w).1 = None)
  ∧ ((Get clock k w).1.2 = false ↔
       (Replace clock k v d w).1 = Some (errDoesntExist k)).
Proof.
  rewrite Get_get, get_found, Add_run, Replace_run.
  destruct (liveAt _ _ _); cbn [fst]; repeat split; done.
Qed.

(** X12. [Add] on a key whose entry is expired writes over that entry: it
    succeeds, the key holds the new value, the other keys keep their
    entries and the number of entries is the same. *)
Theorem Add_replaces_expired_entry k v d item w :
  items (heap w) !! k = Some item →
  Expired_at (clock (ticks w)) item = true →
  let w' := (Add clock k v d w).2 in
  (Add clock k v d w).1 = None
  ∧ (∃ e, items (heap w') !! k = Some (mkItem v e))
  ∧ (∀ k', k' ≠ k → items (heap w') !! k' = items (heap w) !! k')
  ∧ (Count w').1 = (Count w).1.
Proof.
  intros Hk He. cbn zeta. rewrite Add_run. unfold liveAt. rewrite Hk, He.
  cbn [negb fst snd]. rewrite set_run, get_heap. cbn [snd].
  unfold Count. run. split; [done|]. split; [|split].
  - eexists. apply lookup_insert_eq.
  - intros k' Hne. by rewrite lookup_insert_ne.
  - by rewrite map_size_insert, Hk.
Qed.

(** X19. [Replace] on a key whose entry is live writes over that entry: it
    succeeds, the key holds the new value, the other keys keep their
    entries and the number of entries is the same. *)
Theorem Replace_rewrites_live_entry k v d item w :
  items (heap w) !! k = Some item →
  Expired_at (clock (ticks w)) item = false →
  let w' := (Replace clock k v d w).2 in
  (Replace clock k v d w).1 = None
  ∧ (∃ e, items (heap w') !! k = Some (mkItem v e))
  ∧ (∀ k', k' ≠ k → items (heap w') !! k' = items (heap w) !! k')
  ∧ (Count w').1 = (Count w).1.
Proof.
  intros Hk He. cbn zeta. rewrite Replace_run. unfold liveAt. rewrite Hk, He.
  cbn [negb fst snd]. rewrite set_run, get_heap. cbn [snd].
  unfold Count. run. split; [done|]. split; [|split].
  - eexists. apply lookup_insert_eq.
  - intros k' Hne. by rewrite lookup_insert_ne.
  - by rewrite map_size_insert, Hk.
Qed.

(** X13. After a successful [Add], a second [Add] on the key fails with the
    "already exists" error and changes nothing, and the key still holds
    the first value, provided the first entry has not expired: its
    duration resolved to zero or less, or the deadline (the reading the
    first [Add] took when it stored, plus the duration) is an [int64] that
    the reading of the second [Add] has not passed. *)
Theorem Add_then_Add_fails k v1 v2 d1 d2 w :
  let w1 := (Add clock k v1 d1 w).2 in
  let deadline := clock (ticks (get clock k w).2) + resolved (heap w) d1 in
  (Add clock k v1 d1 w).1 = None →
  (0 < resolved (heap w) d1 →
     in_int64 deadline ∧ clock (ticks w1) ≤ deadline) →
  (Add clock k v2 d2 w1).1 = Some (errAlreadyExists k)
  ∧ heap (Add clock k v2 d2 w1).2 = heap w1
  ∧ (Get clock k w1).1 = (v1, true).
Proof.
  cbn zeta. rewrite (Add_run clock k v1).
  destruct (liveAt _ _ _); cbn [fst snd]; [done|]. intros _.
  set (wg := (get clock k w).2).
  assert (heap wg = heap w) as Hwg by apply get_heap.
  rewrite set_run, Hwg. cbn [snd]. set (d' := resolved (heap w) d1).
  set (w1 := mkWorld _ _). intros Hdeadline.
  assert (liveAt (clock (ticks w1)) (items (heap w1)) k = true
          ∧ (Get clock k w1).1 = (v1, true)) as [Hlive Hget].
  { rewrite Get_get, get_run. unfold liveAt. subst w1. cbn [heap items].
    rewrite lookup_insert_eq. cbn [Object]. unfold Expired_at.
    cbn [Expiration ticks] in *.
    destruct (Z.gtb_spec d' 0) as [Hpos|Hle]; [|done].
    destruct (Hdeadline Hpos) as [Hrange Hle]. rewrite wrap64_id by done.
    cbn [fst]. destruct (_ =? 0); [done|].
    destruct (Z.gtb_spec (clock (S (ticks wg))) (clock (ticks wg) + d'));
      [lia|done]. }
  rewrite Add_run, Hlive. cbn [fst snd]. by rewrite get_heap.
Qed.

(** *** The background loop *)

(** X14. With a positive interval, [gcLoop] sweeps once for every tick that
    arrives before the stop signal, taking one reading of the clock per
    sweep; at the stop signal it returns and whatever becomes ready later
    has no effect; without a stop signal it is left waiting. *)
Theorem gcLoop_sweeps_once_per_tick n rest w :
  0 < gcInterval (heap w) →
  let swept := Nat.iter n (λ w0, (DeleteExpired clock mapRange w0).2) w in
  gcLoop clock mapRange (replicate n caseTickerC ++ caseStopGc :: rest) w
    = (gcReturned, swept)
  ∧ gcLoop clock mapRange (replicate n caseTickerC) w = (gcWaiting, swept)
  ∧ ticks swept = (ticks w + n)%nat.
Proof.
  intros Hpos. cbn zeta.
  assert (∀ ready, gcLoop clock mapRange ready w = gcSelect clock mapRange ready w)
    as Hloop.
  { intros ready. unfold gcLoop, NewTicker. run.
    destruct (Z.leb_spec (gcInterval (heap w)) 0); [lia|done]. }
  rewrite !Hloop. clear Hpos Hloop. revert w.
  induction n as [|n IH]; intros w.
  - cbn. repeat split. lia.
  - rewrite Nat.iter_succ_r. cbn [replicate app gcSelect]. run.
    pose proof (DeleteExpired_frame clock mapRange w) as (Ht & _).
    destruct (DeleteExpired clock mapRange w) as [[] w1]. cbn [snd] in *.
    destruct (IH w1) as (Hstop & Hwait & Hticks).
    rewrite Hstop, Hwait, Hticks, Ht. repeat split. lia.
Qed.

(** X15. With an interval of zero or less, [gcLoop] panics when it creates
    its ticker, before any sweep and without touching the cache; and
    [NewCache] starts [gcLoop] with such an interval as with any other. *)
Theorem gcLoop_panics_on_nonpositive_interval d g ready t :
  g ≤ 0 →
  (NewCache (V:=V) d g).2 = [go_gcLoop]
  ∧ gcLoop clock mapRange ready (mkWorld (NewCache d g).1 t)
    = (gcPanicked, mkWorld (NewCache d g).1 t)
  ∧ ∀ w, gcInterval (heap w) = g → gcLoop clock mapRange ready w = (gcPanicked, w).
Proof.
  intros Hg. split; [done|].
  assert (∀ w, gcInterval (heap w) = g →
               gcLoop clock mapRange ready w = (gcPanicked, w)) as Hpanic.
  { intros w Hw. unfold gcLoop, NewTicker. run. rewrite Hw.
    destruct (Z.leb_spec g 0); [done|lia]. }
  split; [by apply Hpanic|done].
Qed.

(** *** The settings *)

(** X16. No method changes the default expiration or the sweep interval the
    cache was built with. *)
Theorem settings_never_change w :
  let same w' :=
    defaultExpiration (heap w') = defaultExpiration (heap w)
    ∧ gcInterval (heap w') = gcInterval (heap w) in
  (∀ k v d,
     same (Set_ clock k v d w).2 ∧ same (Add clock k v d w).2
     ∧ same (Replace clock k v d w).2)
  ∧ (∀ k, same (Get clock k w).2 ∧ same (Delete k w).2)
  ∧ same (Clear w).2 ∧ same (Count w).2
  ∧ same (DeleteExpired clock mapRange w).2
  ∧ (∀ r, same (Load clock mapRange gobDecode r w).2)
  ∧ (∀ ready, same (gcLoop clock mapRange ready w).2).
Proof.
  cbn zeta.
  assert (∀ ready w0,
    defaultExpiration (heap (gcSelect clock mapRange ready w0).2)
      = defaultExpiration (heap w0)
    ∧ gcInterval (heap (gcSelect clock mapRange ready w0).2)
      = gcInterval (heap w0)) as Hselect.
  { induction ready as [|[] ready IH]; intros w0; [done| |done].
    cbn [gcSelect]. run.
    pose proof (DeleteExpired_frame clock mapRange w0) as (_ & Hd & Hg).
    destruct (DeleteExpired clock mapRange w0) as [[] w1]. cbn [snd] in *.
    destruct (IH w1) as [-> ->]. done. }
  split; [|split; [|split; [|split; [|split; [|split]]]]].
  - intros k v d. rewrite Set_set, Add_run, Replace_run, !set_run, get_heap.
    destruct (liveAt _ _ _); cbn [snd heap defaultExpiration gcInterval];
      rewrite ?get_heap; done.
  - intros k. by rewrite Get_get, get_heap.
  - done.
  - done.
  - apply (DeleteExpired_frame clock mapRange w).
  - intros r. unfold Load. destruct (gobDecode r) as [err|loaded]; [done|].
    run. pose proof (merge_loop_frame clock (mapRange loaded) w) as (_ & Hd & Hg).
    by destruct (forEach (mapRange loaded) (mergeEntry clock) w) as [[] w'].
  - intros ready. unfold gcLoop. run.
    destruct (NewTicker (gcInterval (heap w))); [apply Hselect|done].
Qed.

End Further.

(** ** Properties of saving *)

Section SavingProperties.

Context {V Registry : Type}.
Variable clock : nat → Z.
Variable mapRange : gmap string (Item V) → list (string * Item V).
Hypothesis mapRange_enum : ∀ m, mapRange m ≡ₚ map_to_list m.
Variable gobDecode : list Byte.byte → error + gmap string (Item V).
Variable gobRegister : option V → Registry → Registry * bool.
Variable gobEncode :
  Registry → gmap string (Item V) → list Byte.byte * callEnd (option error).

Implicit Types (k : string) (item : Item V) (w : World V) (reg : Registry).

(** The registering loop panics when it meets a value on which
    [gob.Register] panics, at the latest. *)
Lemma registerEach_panics (l : list (string * Item V)) k item reg :
  (k, item) ∈ l →
  (∀ reg', (gobRegister (Object item) reg').2 = true) →
  (registerEach gobRegister l reg).2 = true.
Proof.
  intros Hin Hpanics. revert reg.
  induction l as [|[k0 v0] l IH]; intros reg.
  - by apply elem_of_nil in Hin.
  - cbn [registerEach snd].
    destruct (gobRegister (Object v0) reg) as [reg' panicked] eqn:Hreg.
    destruct panicked; [done|].
    apply elem_of_cons in Hin as [Heq|Hin]; [|by apply IH].
    injection Heq as <- <-. specialize (Hpanics reg).
    rewrite Hreg in Hpanics. done.
Qed.

(** X17. When the cache holds a value on which [gob.Register] panics,
    [Save] returns the registering error whatever the order in which the
    map is iterated; nothing is written to the writer and the cache is as
    it was. *)
Theorem Save_fails_on_unregistrable_value k item reg w :
  items (heap w) !! k = Some item →
  (∀ reg', (gobRegister (Object item) reg').2 = true) →
  let r := Save mapRange gobRegister gobEncode reg w in
  savedErr r.1 = Some errRegistering
  ∧ savedBytes r.1 = []
  ∧ r.2 = w.
Proof.
  intros Hk Hpanics. cbn zeta. unfold Save, readItems, mbind, M_bind.
  pose proof (registerEach_panics (mapRange (items (heap w))) k item reg
    (proj2 (mapRange_elem mapRange mapRange_enum _ k item) Hk) Hpanics) as Hreg.
  destruct (registerEach gobRegister (mapRange (items (heap w))) reg)
    as [reg' panicked].
  cbn [snd] in Hreg. subst panicked. done.
Qed.

(** X18. With a gob library whose decoder reads back what its encoder wrote
    without error, a snapshot that [Save] wrote without error is restored
    by [Load] into a new cache: the cache then has exactly the entries of
    the saved one, with their expirations, and [Get] answers for every key
    at every reading as it does on the saved cache.  [Save] leaves the
    cache it saves as it was. *)
Theorem Save_then_Load_restores reg w d g t :
  (∀ reg' m bytes,
     gobEncode reg' m = (bytes, returns None) → gobDecode bytes = inr m) →
  let r := Save mapRange gobRegister gobEncode reg w in
  let fresh := mkWorld (NewCache (V:=V) d g).1 t in
  let restored := mkWorld (mkCache d (items (heap w)) g) t in
  savedErr r.1 = None →
  r.2 = w
  ∧ Load clock mapRange gobDecode (savedBytes r.1) fresh = (None, restored)
  ∧ ∀ k t',
      (Get clock k (mkWorld (heap restored) t')).1
      = (Get clock k (mkWorld (heap w) t')).1.
Proof.
  intros Hcodec. cbn zeta. unfold Save, readItems, mbind, M_bind.
  destruct (registerEach gobRegister (mapRange (items (heap w))) reg)
    as [reg' panicked].
  destruct panicked; [done|].
  destruct (gobEncode reg' (items (heap w))) as [bytes [err|]] eqn:Henc;
    cbn [mret M_ret fst snd savedErr savedBytes]; [|done].
  intros ->. split; [done|]. split.
  - unfold Load. rewrite (Hcodec _ _ _ Henc).
    unfold mbind, M_bind, mret, M_ret.
    pose proof (merge_loop_into_empty clock mapRange mapRange_enum
                  (items (heap w)) (mkWorld (NewCache d g).1 t) eq_refl)
      as Hloop.
    destruct (forEach (mapRange (items (heap w))) (mergeEntry clock)
                (mkWorld (NewCache d g).1 t)) as [[] w'].
    cbn [snd] in Hloop. by rewrite Hloop.
  - intros k t'. rewrite !Get_get, !get_run. cbn [heap items ticks].
    by destruct (items (heap w) !! k).
Qed.

End SavingProperties.

(** ** The theorems at the sample inputs *)

Local Abbreviation clock := Samples.clock.
Local Abbreviation world := Samples.world.

(** [map_to_list] is one of the orders [range] may take. *)
Lemma map_to_list_enum (m : gmap string (Item nat)) :
  map_to_list m ≡ₚ map_to_list m.
Proof. reflexivity. Defined.

Lemma Samples_clock_nonneg i : 0 ≤ Samples.clock i.
Proof. unfold Samples.clock. lia. Defined.

(** The model run on the samples: a value set with a positive duration is
    read back; a sweep removes ["old"] and nothing else; the sample
    snapshot replaces the expired ["old"], adds ["new"] and leaves
    ["live"]. *)
Example Set_then_Get :
  (Get clock "k" (Set_ clock "k" (Some 7%nat) 100 world).2).1
    = (Some 7%nat, true).
Proof. reflexivity. Qed.

Example DeleteExpired_sample :
  let w' := (DeleteExpired clock map_to_list world).2 in
  items (heap w') !! "old"%string = None
  ∧ items (heap w') !! "live"%string = Some (mkItem (Some 1%nat) 5000)
  ∧ items (heap w') !! "neg"%string = Some (mkItem (Some 3%nat) (-5))
  ∧ items (heap w') !! "forever"%string = Some (mkItem (Some 4%nat) 0)
  ∧ (Count w').1 = 3%nat.
Proof. repeat split; vm_compute; reflexivity. Qed.

Example Load_sample :
  let w' := (Load clock map_to_list Samples.decode [Byte.x00] world).2 in
  items (heap w') !! "old"%string = Some (mkItem (Some 20%nat) 0)
  ∧ items (heap w') !! "new"%string = Some (mkItem (Some 30%nat) (-7))
  ∧ items (heap w') !! "live"%string = Some (mkItem (Some 1%nat) 5000)
  ∧ (Count w').1 = 5%nat.
Proof. repeat split; vm_compute; reflexivity. Qed.

(** At the first reading, 1000ns, an entry that expires at 900ns is
    expired, whatever its value. *)
Lemma Expired_strict_and_pure_witness :
  (Expired clock (mkItem (Some 7%nat) 900) world).1 = true
  ∧ (Expired clock (mkItem (Some 2%nat) 900) world).1 =
      (Expired clock (mkItem (Some 7%nat) 900) world).1.
Proof.
  destruct (Expired_strict_and_pure clock (mkItem (Some 7%nat) 900) world)
    as (Hiff & _ & Hpure & _).
  split.
  - apply Hiff. split; [discriminate|reflexivity].
  - apply Hpure; reflexivity.
Defined.

(** ["old"] is stored, expired, and counted. *)
Lemma Count_includes_expired_witness :
  (Get clock "old" world).1 = (None, false)
  ∧ (Count world).1 = S (size (delete "old" (items (heap world)))).
Proof.
  destruct (Count_includes_expired clock world) as [_ Hexp].
  apply (Hexp "old" (mkItem (Some 2%nat) 900)); reflexivity.
Defined.

(** ["live"] is live: [Add] fails and changes nothing; ["old"] is expired:
    [Add] succeeds. *)
Lemma Add_fails_iff_live_witness :
  (Add clock "live" (Some 9%nat) 0 world).1 = Some (errAlreadyExists "live")
  ∧ heap (Add clock "live" (Some 9%nat) 0 world).2 = heap world
  ∧ (Add clock "old" (Some 9%nat) 0 world).1 = None.
Proof.
  destruct (Add_fails_iff_live clock "live" (Some 9%nat) 0 world)
    as (Hlive & _ & _ & Hfail).
  destruct (Add_fails_iff_live clock "old" (Some 9%nat) 0 world)
    as (_ & Hfree & _ & _).
  assert ((Add clock "live" (Some 9%nat) 0 world).1
          = Some (errAlreadyExists "live")) as Herr.
  { apply Hlive. exists (mkItem (Some 1%nat) 5000). split; reflexivity. }
  split; [exact Herr|]. split.
  - apply Hfail. rewrite Herr. discriminate.
  - apply Hfree. right. exists (mkItem (Some 2%nat) 900). split; reflexivity.
Defined.

(** ["absent"] has no entry: [Replace] fails and leaves the state as it
    is; ["live"] is live: [Replace] succeeds. *)
Lemma Replace_fails_iff_not_live_witness :
  (Replace clock "absent" (Some 9%nat) 0 world).1 = Some (errDoesntExist "absent")
  ∧ (Replace clock "absent" (Some 9%nat) 0 world).2 = world
  ∧ (Replace clock "live" (Some 9%nat) 0 world).1 = None.
Proof.
  destruct (Replace_fails_iff_not_live clock "absent" (Some 9%nat) 0 world)
    as (_ & _ & _ & Habsent & _ & _).
  destruct (Replace_fails_iff_not_live clock "live" (Some 9%nat) 0 world)
    as (_ & Hlive & _).
  destruct Habsent as (Herr & Hsame & _); [reflexivity|].
  split; [exact Herr|]. split; [exact Hsame|].
  apply Hlive. exists (mkItem (Some 1%nat) 5000). split; reflexivity.
Defined.

(** With the default of 50ns and the reading 1000ns, the duration
    [DefaultExpiration] stores the expiration 1050, and [NoExpiration] stores
    the sentinel. *)
Lemma set_resolves_duration_witness :
  items (heap (set clock "a" (Some 9%nat) DefaultExpiration world).2) !! "a"%string
    = Some (mkItem (Some 9%nat) 1050)
  ∧ items (heap (set clock "a" (Some 9%nat) NoExpiration world).2) !! "a"%string
    = Some (mkItem (Some 9%nat) 0).
Proof.
  destruct (set_resolves_duration clock "a" (Some 9%nat) DefaultExpiration world)
    as ((e & Hitems & _ & Hpos & _) & _).
  destruct (set_resolves_duration clock "a" (Some 9%nat) NoExpiration world)
    as ((e' & Hitems' & Hneg & _) & _).
  split.
  - rewrite Hitems, lookup_insert_eq.
    destruct Hpos as [_ He]; [reflexivity|].
    destruct He as [He _]; [vm_compute; split; discriminate|].
    rewrite He. reflexivity.
  - rewrite Hitems', lookup_insert_eq.
    destruct Hneg as [He _]; [discriminate|]. by rewrite He.
Defined.

(** The empty stream does not decode. *)
Lemma Load_decoding_error_witness :
  Samples.decode [] = inl "EOF"%string
  ∧ Load clock map_to_list Samples.decode [] world = (Some "EOF"%string, world).
Proof.
  split; [reflexivity|].
  apply (Load_decoding_error clock map_to_list Samples.decode [] "EOF"%string world).
  reflexivity.
Defined.

(** Loading the sample snapshot: ["live"] keeps its entry and its value is
    what [Get] returns afterwards, although the snapshot has another entry
    for it. *)
Lemma Load_merges_without_clobbering_witness :
  Samples.decode [Byte.x00] = inr Samples.snapshot
  ∧ let w' := (Load clock map_to_list Samples.decode [Byte.x00] world).2 in
    items (heap w') !! "live"%string = Some (mkItem (Some 1%nat) 5000)
    ∧ (Get clock "live" w').1 = (Some 1%nat, true).
Proof.
  split; [reflexivity|]. cbn zeta.
  destruct (Load_merges_without_clobbering clock map_to_list map_to_list_enum
              Samples.decode [Byte.x00] Samples.snapshot "live" world eq_refl)
    as [_ Hmerge].
  assert (Samples.snapshot !! "live"%string = Some (mkItem (Some 10%nat) 0))
    as Hloaded by reflexivity.
  assert (items (heap world) !! "live"%string = Some (mkItem (Some 1%nat) 5000))
    as Hstored by reflexivity.
  assert (ticks (Load clock map_to_list Samples.decode [Byte.x00] world).2
          = 2%nat) as Hticks by reflexivity.
  cbn zeta in Hmerge. rewrite Hloaded, Hstored, Hticks in Hmerge.
  destruct Hmerge as (t & [_ Ht] & _ & Hmerge).
  assert (Expired_at (clock t) (mkItem (Some 1%nat) 5000) = false) as Hlive.
  { unfold Expired_at, Samples.clock. cbn [Expiration Z.eqb].
    destruct (Z.gtb_spec (1000 + Z.of_nat t) 5000); [lia|reflexivity]. }
  rewrite Hlive in Hmerge. destruct Hmerge as [Hkept Hget].
  split; [exact Hkept|]. apply Hget; reflexivity.
Defined.

(** With an interval of 10ns the sweep goroutine creates its ticker and
    runs. *)
Lemma NewCache_always_starts_gcLoop_witness :
  0 < 10
  ∧ (gcLoop clock map_to_list [caseTickerC; caseStopGc]
       (mkWorld (NewCache (V:=nat) 50 10).1 0)).1 ≠ gcPanicked.
Proof.
  split; [lia|].
  destruct (NewCache_always_starts_gcLoop (V:=nat) clock map_to_list 50 10)
    as (_ & _ & _ & _ & Hpos & _).
  apply Hpos. lia.
Defined.

(** C3 fails for the code: with interval 0 the cache is returned, but the
    sweep goroutine has been started, and its first action, the creation of
    a ticker with period 0, panics. *)
Lemma NewCache_zero_interval_starts_panicking_gcLoop :
  (NewCache (V:=nat) 50 0).2 ≠ []
  ∧ (NewCache (V:=nat) 50 0).2 = [go_gcLoop]
  ∧ NewTicker (gcInterval (NewCache (V:=nat) 50 0).1) = None
  ∧ gcLoop clock map_to_list [caseTickerC]
      (mkWorld (NewCache (V:=nat) 50 0).1 0)
    = (gcPanicked, mkWorld (NewCache (V:=nat) 50 0).1 0).
Proof.
  split; [discriminate|]. split; [reflexivity|]. split; reflexivity.
Qed.

(** ["neg"] has expiration -5: it is hidden from [Get] and survives two
    sweeps. *)
Lemma negative_expiration_hidden_never_swept_witness :
  items (heap world) !! "neg"%string = Some (mkItem (Some 3%nat) (-5))
  ∧ let w' := (gcSelect clock map_to_list [caseTickerC; caseTickerC] world).2 in
    (Get clock "neg" world).1 = (None, false)
    ∧ items (heap w') !! "neg"%string = Some (mkItem (Some 3%nat) (-5))
    ∧ (Get clock "neg" w').1 = (None, false).
Proof.
  split; [reflexivity|]. cbn zeta.
  destruct (negative_expiration_hidden_never_swept clock map_to_list
              map_to_list_enum Samples.decode "neg" (mkItem (Some 3%nat) (-5))
              world [caseTickerC; caseTickerC])
    as (_ & _ & Hget & _ & _ & Hkept & _ & Hget' & _).
  - reflexivity.
  - cbn. lia.
  - split; [apply Hget; apply Samples_clock_nonneg|].
    split; [exact Hkept|apply Hget'; apply Samples_clock_nonneg].
Defined.

(** C10 fails for the code in its two side remarks.  [Set] does build a
    negative expiration: with the reading 1000ns and the largest duration,
    the sum leaves the range of [int64] and [UnixNano] returns a negative
    number; the entry is hidden from [Get] at once and a sweep keeps it.
    And an entry with a negative expiration is found by [Get] when the
    clock reads a time before its expiration. *)
Lemma Set_builds_negative_expiration :
  (let w' := (Set_ clock "big" (Some 7%nat) int64_max world).2 in
   items (heap w') !! "big"%string
     = Some (mkItem (Some 7%nat) (-9223372036854774809))
   ∧ (Get clock "big" w').1 = (None, false)
   ∧ items (heap (DeleteExpired clock map_to_list w').2) !! "big"%string
     = Some (mkItem (Some 7%nat) (-9223372036854774809)))
  ∧ (Get (λ _, -10) "neg" world).1 = (Some 3%nat, true).
Proof.
  split; [cbn zeta; split; [|split]|]; vm_compute; reflexivity.
Qed.


(** *** The further properties at the sample inputs *)

Local Abbreviation saveWorld := SaveSamples.world.

(** Discharges a side condition on the samples by evaluation. *)
Ltac by_evaluation :=
  vm_compute; first [reflexivity | discriminate | split; discriminate].

(** A value set for 100ns at the reading 1000ns is found at 1005ns and
    not at 1200ns. *)
Lemma Set_then_Get_until_deadline_witness :
  (Get clock "k" (mkWorld (heap (Set_ clock "k" (Some 7%nat) 100 world).2) 5)).1
    = (Some 7%nat, true)
  ∧ (Get clock "k" (mkWorld (heap (Set_ clock "k" (Some 7%nat) 100 world).2) 200)).1
    = (None, false).
Proof.
  split.
  - apply (Set_then_Get_until_deadline clock "k" (Some 7%nat) 100 world
             (mkWorld (heap (Set_ clock "k" (Some 7%nat) 100 world).2) 5));
      by_evaluation.
  - apply (Set_then_Get_until_deadline clock "k" (Some 7%nat) 100 world
             (mkWorld (heap (Set_ clock "k" (Some 7%nat) 100 world).2) 200));
      by_evaluation.
Defined.

(** A value set with [NoExpiration] is found after two sweeps, at a late
    reading. *)
Lemma Set_without_deadline_survives_witness :
  (Get clock "k"
     (mkWorld
        (heap (gcSelect clock map_to_list [caseTickerC; caseTickerC]
                 (Set_ clock "k" (Some 7%nat) NoExpiration world).2).2)
        500)).1
  = (Some 7%nat, true).
Proof.
  apply (Set_without_deadline_survives clock map_to_list map_to_list_enum
           "k" (Some 7%nat) NoExpiration world [caseTickerC; caseTickerC]);
    by_evaluation.
Defined.

(** Setting the expired ["old"] keeps the four entries and leaves ["live"]
    alone. *)
Lemma Set_overwrites_one_key_witness :
  items (heap (Set_ clock "old" (Some 7%nat) 100 world).2) !! "live"%string
    = items (heap world) !! "live"%string
  ∧ (Count (Set_ clock "old" (Some 7%nat) 100 world).2).1 = 4%nat.
Proof.
  destruct (Set_overwrites_one_key clock "old" (Some 7%nat) 100 world)
    as (_ & Hother & Hcount).
  split; [apply Hother; discriminate|exact Hcount].
Defined.

(** Deleting ["live"] leaves three entries; deleting ["absent"] changes
    nothing. *)
Lemma Delete_removes_one_key_witness :
  (Count (Delete "live" world).2).1 = 3%nat
  ∧ (Get clock "live" (Delete "live" world).2).1 = (None, false)
  ∧ (Delete "absent" world).2 = world.
Proof.
  destruct (Delete_removes_one_key clock "live" world)
    as (_ & _ & _ & Hcount & Hafter).
  destruct (Delete_removes_one_key clock "absent" world)
    as (_ & _ & Hid & _).
  split; [exact Hcount|]. split.
  - apply (Hafter (Delete "live" world).2). reflexivity.
  - apply Hid. reflexivity.
Defined.

(** After [Clear], ["live"] is not found and can be added. *)
Lemma Clear_empties_witness :
  (Get clock "live" (Clear world).2).1 = (None, false)
  ∧ (Add clock "live" (Some 7%nat) 0 (Clear world).2).1 = None.
Proof.
  destruct (Clear_empties clock world) as (_ & _ & _ & _ & Hafter).
  destruct (Hafter "live" (Clear world).2 eq_refl) as [Hget Hwrite].
  split; [exact Hget|]. apply (Hwrite (Some 7%nat) 0).
Defined.

(** The sweep at 1000ns leaves ["neg"], which is expired and has a
    negative expiration, and does not leave ["old"]. *)
Lemma DeleteExpired_removes_exactly_witness :
  items (heap (DeleteExpired clock map_to_list world).2) !! "neg"%string
    = Some (mkItem (Some 3%nat) (-5))
  ∧ Expiration (mkItem (Some 3%nat) (-5)) < 0
  ∧ ((Count (DeleteExpired clock map_to_list world).2).1 ≤ 4)%nat.
Proof.
  destruct (DeleteExpired_removes_exactly clock map_to_list map_to_list_enum
              world) as (_ & _ & Hcount & Hleft).
  assert (items (heap (DeleteExpired clock map_to_list world).2) !! "neg"%string
          = Some (mkItem (Some 3%nat) (-5))) as Hneg by by_evaluation.
  split; [exact Hneg|]. split.
  - apply (Hleft "neg" _ Hneg). reflexivity.
  - exact Hcount.
Defined.

(** ["old"], which the sweep removes, was not found before it either. *)
Lemma DeleteExpired_invisible_to_Get_witness :
  (Get clock "old" (DeleteExpired clock map_to_list world).2).1
  = (Get clock "old" (mkWorld (heap world) 1)).1.
Proof.
  assert (clock (ticks world)
          ≤ clock (ticks (DeleteExpired clock map_to_list world).2)) as Hclock
    by by_evaluation.
  exact (DeleteExpired_invisible_to_Get clock map_to_list map_to_list_enum
           "old" world (DeleteExpired clock map_to_list world).2
           eq_refl Hclock).
Defined.

(** ["old"] is not found at the reading 1000ns nor at 1007ns. *)
Lemma Get_not_found_is_stable_witness :
  (Get clock "old" (mkWorld (heap world) 7)).1 = (None, false).
Proof.
  apply (Get_not_found_is_stable clock "old" world (mkWorld (heap world) 7));
    by_evaluation.
Defined.

(** Loading the sample snapshot into a new cache stores the snapshot. *)
Lemma Load_into_empty_restores_witness :
  Load clock map_to_list Samples.decode [Byte.x00]
    (mkWorld (NewCache (V:=nat) 50 10).1 0)
  = (None, mkWorld (mkCache 50 Samples.snapshot 10) 0).
Proof.
  apply (Load_into_empty_restores clock map_to_list map_to_list_enum
           Samples.decode [Byte.x00] Samples.snapshot
           (mkWorld (NewCache (V:=nat) 50 10).1 0));
    reflexivity.
Defined.

(** Loading the sample snapshot into the sample cache adds the key ["new"]
    and no other. *)
Lemma Load_keys_are_union_witness :
  dom (items (heap (Load clock map_to_list Samples.decode [Byte.x00] world).2))
  = dom (items (heap world)) ∪ dom Samples.snapshot.
Proof.
  apply (Load_keys_are_union clock map_to_list map_to_list_enum
           Samples.decode [Byte.x00] Samples.snapshot world).
  reflexivity.
Defined.

(** ["live"] is found, so [Add] fails on it and [Replace] succeeds. *)
Lemma Add_and_Replace_agree_with_Get_witness :
  (Add clock "live" (Some 7%nat) 0 world).1 = Some (errAlreadyExists "live")
  ∧ (Replace clock "live" (Some 7%nat) 0 world).1 = None.
Proof.
  destruct (Add_and_Replace_agree_with_Get clock "live" (Some 7%nat) 0 world)
    as (Hadd & Hreplace & _).
  split; [apply Hadd|apply Hreplace]; reflexivity.
Defined.

(** [Add] on the expired ["old"] keeps the four entries. *)
Lemma Add_replaces_expired_entry_witness :
  (Add clock "old" (Some 7%nat) 0 world).1 = None
  ∧ (Count (Add clock "old" (Some 7%nat) 0 world).2).1 = 4%nat.
Proof.
  destruct (Add_replaces_expired_entry clock "old" (Some 7%nat) 0
              (mkItem (Some 2%nat) 900) world)
    as (Hok & _ & _ & Hcount); [reflexivity|reflexivity|].
  split; [exact Hok|exact Hcount].
Defined.

(** [Replace] on the live ["live"] keeps the four entries. *)
Lemma Replace_rewrites_live_entry_witness :
  (Replace clock "live" (Some 7%nat) 0 world).1 = None
  ∧ (Count (Replace clock "live" (Some 7%nat) 0 world).2).1 = 4%nat.
Proof.
  destruct (Replace_rewrites_live_entry clock "live" (Some 7%nat) 0
              (mkItem (Some 1%nat) 5000) world)
    as (Hok & _ & _ & Hcount); [reflexivity|reflexivity|].
  split; [exact Hok|exact Hcount].
Defined.

(** A second [Add] of ["k"], made while the first entry is live, fails. *)
Lemma Add_then_Add_fails_witness :
  (Add clock "k" (Some 7%nat) 100 world).1 = None
  ∧ (Add clock "k" (Some 8%nat) 100 (Add clock "k" (Some 7%nat) 100 world).2).1
    = Some (errAlreadyExists "k")
  ∧ (Get clock "k" (Add clock "k" (Some 7%nat) 100 world).2).1
    = (Some 7%nat, true).
Proof.
  split; [reflexivity|].
  destruct (Add_then_Add_fails clock "k" (Some 7%nat) (Some 8%nat) 100 100 world)
    as (Herr & _ & Hget).
  - reflexivity.
  - intros _. split; by_evaluation.
  - split; [exact Herr|exact Hget].
Defined.

(** Two ticks and a stop: two sweeps, two readings, and the loop has
    returned. *)
Lemma gcLoop_sweeps_once_per_tick_witness :
  (gcLoop clock map_to_list [caseTickerC; caseTickerC; caseStopGc; caseTickerC]
     world).1 = gcReturned
  ∧ ticks (gcLoop clock map_to_list
             [caseTickerC; caseTickerC; caseStopGc; caseTickerC] world).2
    = 2%nat.
Proof.
  destruct (gcLoop_sweeps_once_per_tick clock map_to_list 2 [caseTickerC] world)
    as (Hstop & _ & Hticks); [reflexivity|].
  change (replicate 2 caseTickerC ++ caseStopGc :: [caseTickerC])
    with [caseTickerC; caseTickerC; caseStopGc; caseTickerC] in Hstop.
  rewrite Hstop. split; [reflexivity|exact Hticks].
Defined.

(** With the interval -1 the loop panics. *)
Lemma gcLoop_panics_on_nonpositive_interval_witness :
  (gcLoop clock map_to_list [caseTickerC]
     (mkWorld (NewCache (V:=nat) 50 (-1)).1 0)).1 = gcPanicked.
Proof.
  destruct (gcLoop_panics_on_nonpositive_interval (V:=nat) clock map_to_list
              50 (-1) [caseTickerC] 0) as (_ & Hpanic & _); [discriminate|].
  rewrite Hpanic. reflexivity.
Defined.

(** The sample cache keeps its default of 50ns through a [Load]. *)
Lemma settings_never_change_witness :
  defaultExpiration
    (heap (Load clock map_to_list Samples.decode [Byte.x00] world).2) = 50.
Proof.
  destruct (settings_never_change clock map_to_list Samples.decode world)
    as (_ & _ & _ & _ & _ & Hload & _).
  destruct (Hload [Byte.x00]) as [Hdefault _]. exact Hdefault.
Defined.

(** A cache that holds [nil] is not saved. *)
Lemma Save_fails_on_unregistrable_value_witness :
  savedErr (Save map_to_list SaveSamples.register SaveSamples.encode []
              SaveSamples.worldWithNil).1 = Some errRegistering.
Proof.
  destruct (Save_fails_on_unregistrable_value map_to_list map_to_list_enum
              SaveSamples.register SaveSamples.encode "nil" (mkItem None 0) []
              SaveSamples.worldWithNil) as (Herr & _).
  - reflexivity.
  - intros reg'. reflexivity.
  - exact Herr.
Defined.

(** The sample encoder and decoder fit together. *)
Lemma SaveSamples_codec (reg : list nat) (m : gmap string (Item nat))
    (bytes : list Byte.byte) :
  SaveSamples.encode reg m = (bytes, returns None) →
  Samples.decode bytes = inr m.
Proof.
  unfold SaveSamples.encode. destruct (decide (m = Samples.snapshot)) as [->|].
  - intros [= <-]. reflexivity.
  - intros [= _ Herr].
Defined.

(** The cache that holds the sample snapshot is saved and restored. *)
Lemma Save_then_Load_restores_witness :
  savedErr (Save map_to_list SaveSamples.register SaveSamples.encode []
              saveWorld).1 = None
  ∧ Load clock map_to_list Samples.decode
      (savedBytes (Save map_to_list SaveSamples.register SaveSamples.encode []
                     saveWorld).1)
      (mkWorld (NewCache (V:=nat) 7 3).1 0)
    = (None, mkWorld (mkCache 7 (items (heap saveWorld)) 3) 0).
Proof.
  split; [by_evaluation|].
  destruct (Save_then_Load_restores clock map_to_list map_to_list_enum
              Samples.decode SaveSamples.register SaveSamples.encode
              [] saveWorld 7 3 0 SaveSamples_codec) as (_ & Hload & _).
  - by_evaluation.
  - exact Hload.
Defined.

End gocache.
